(** * The deployment trigger of piped (pkg/app/piped/trigger/trigger.go)

    A shallow embedding of the trigger: the candidate collectors, the
    grouping of candidates by repository, the per-repository check loop and
    the notification helpers, followed by the properties of the design
    document that concern them.

    Everything the trigger does to the outside world (Git, the file system,
    the control plane, the notifier, the logger) is recorded as an [Event]
    appended to a trace.  The answers of the outside world are functions of
    the trace so far, so a collaborator may answer differently each time it
    is asked. *)

From stdpp Require Import base numbers strings list gmap pretty.

(** ** Errors *)

(** A Go [error].  [os.IsNotExist] tells the file-not-found errors apart;
    every other error is known by its message only. *)
Inductive error :=
| ErrNotExist (path : string)
| Errorf (msg : string).

Definition Error (e : error) : string :=
  match e with
  | ErrNotExist p => "open " +:+ p +:+ ": no such file or directory"
  | Errorf m => m
  end.

Definition os_IsNotExist (e : error) : bool :=
  match e with
  | ErrNotExist _ => true
  | Errorf _ => false
  end.

(** ** Data of the collaborating packages *)

(** Modelled from the spec: the package [git] is not among the sources.
    A commit is "{hash, message, author, timestamp}". *)
Module git.
Record Commit := {
  Hash : string;
  Message : string;
  Author : string;
  CreatedAt : Z;
}.
End git.

(** Modelled from the spec: the package [model] is not among the sources.
    The design document lists, for an application, its id, name, kind,
    environment id, Git path (repository id and relative path of the
    deployment configuration file) and sync status; for a deployment, the
    application, branch, head commit, commander and sync strategy it is
    built from. *)
Module model.
Inductive ApplicationKind :=
| KUBERNETES | TERRAFORM | CROSSPLANE | LAMBDA | CLOUDRUN | ECS.

Definition ApplicationKind_String (k : ApplicationKind) : string :=
  match k with
  | KUBERNETES => "KUBERNETES"
  | TERRAFORM => "TERRAFORM"
  | CROSSPLANE => "CROSSPLANE"
  | LAMBDA => "LAMBDA"
  | CLOUDRUN => "CLOUDRUN"
  | ECS => "ECS"
  end.

Inductive ApplicationSyncStatus :=
| UNKNOWN | SYNCED | DEPLOYING | OUT_OF_SYNC.

Inductive SyncStrategy :=
| SyncStrategy_AUTO | SyncStrategy_QUICK_SYNC | SyncStrategy_PIPELINE.

Inductive CommandStatus :=
| COMMAND_NOT_HANDLED_YET | COMMAND_SUCCEEDED | COMMAND_FAILED | COMMAND_TIMEOUT.

Inductive NotificationEventType :=
| EVENT_DEPLOYMENT_TRIGGERED
| EVENT_DEPLOYMENT_TRIGGER_FAILED.

Record ApplicationGitPath := {
  Repo_Id : string;
  (* what GetDeploymentConfigFilePath() answers *)
  GetDeploymentConfigFilePath : string;
}.

Record Application := {
  App_Id : string;
  App_Name : string;
  App_Kind : ApplicationKind;
  App_EnvId : string;
  GitPath : ApplicationGitPath;
  SyncState_Status : ApplicationSyncStatus;
}.

Record Environment := {
  Env_Id : string;
  Env_Name : string;
}.

Record SyncApplication := {
  ApplicationId : string;
  Sync_SyncStrategy : SyncStrategy;
}.

(** A pending command as the command lister hands it out.  For a command
    that is not a sync command [GetSyncApplication] is nil. *)
Record ReportableCommand := {
  Command_Id : string;
  Commander : string;
  GetSyncApplication : option SyncApplication;
}.

Record Deployment := {
  Deployment_Id : string;
  Deployment_ApplicationId : string;
  Deployment_ApplicationName : string;
  Deployment_EnvId : string;
  Deployment_Kind : ApplicationKind;
  Trigger_Branch : string;
  Trigger_Commit : git.Commit;
  Trigger_Commander : string;
  Trigger_SyncStrategy : SyncStrategy;
}.

Inductive NotificationEventMetadata :=
| NotificationEventDeploymentTriggered
    (d : Deployment) (EnvName : string) (MentionedAccounts : list string)
| NotificationEventDeploymentTriggerFailed
    (app : Application) (CommitHash CommitMessage Reason : string).

Record NotificationEvent := {
  Type_ : NotificationEventType;
  Metadata : NotificationEventMetadata;
}.
End model.

(** Modelled from the spec: the package [config] is not among the sources.
    A parsed configuration file declares a kind; a deployment configuration
    carries an optional notification setting that names the accounts to
    mention for an event type. *)
Module config.
Record DeploymentNotification := {
  FindSlackAccounts : model.NotificationEventType → list string;
}.

Record GenericDeploymentSpec := {
  DeploymentNotification_ : option DeploymentNotification;
}.

Record Config := {
  Kind : string;
  (* what GetGenericDeployment() answers: the spec, and whether there is one *)
  GetGenericDeployment : option GenericDeploymentSpec;
}.

Record PipedRepository := {
  RepoID : string;
  Remote : string;
  Branch : string;
}.

Record PipedSpec := {
  Repositories : list PipedRepository;
  SyncInterval : Z;
}.
End config.

Export git model config.

(** ** trigger.go: constants and candidates *)

Definition defaultLastTriggeredCommitCacheSize : nat := 500.
Definition triggeredDeploymentIDKey : string := "TriggeredDeploymentID".

Inductive candidateKind :=
| commitCandidate
| commandCandidate
| outOfSyncCandidate.

Global Instance candidateKind_eq_dec : EqDecision candidateKind.
Proof. solve_decision. Defined.

Global Instance ApplicationKind_eq_dec : EqDecision ApplicationKind.
Proof. solve_decision. Defined.

Global Instance ApplicationSyncStatus_eq_dec : EqDecision ApplicationSyncStatus.
Proof. solve_decision. Defined.

(** Go's zero value of [model.ReportableCommand], held by the candidates
    that are not command candidates. *)
Definition ReportableCommand_zero : ReportableCommand :=
  {| Command_Id := ""; Commander := ""; GetSyncApplication := None |}.

Record candidate := {
  application : Application;
  kind : candidateKind;
  command : ReportableCommand;
}.

(** ** Effects *)

Inductive LogLevel := Info | Warn | Error_.

Inductive Event :=
| EvClone (repoID remote branch destination : string)
| EvPull (repoID branch : string)
| EvGetLatestCommit (repoID : string)
| EvLoadFromYAML (absPath : string)
| EvShouldTrigger (k : candidateKind) (app : Application)
| EvCreateDeployment (d : Deployment)
| EvCommitStorePut (appId hash : string)
| EvEnvironmentGet (envId : string)
| EvNotify (e : NotificationEvent)
| EvReport (cmd : ReportableCommand) (status : CommandStatus)
           (metadata : gmap string string)
| EvLog (lvl : LogLevel) (msg : string) (fields : list (string * string)).

Definition History := list Event.

Definition zap_Error (e : error) : string * string := ("error", Error e).
Definition zap_String (k v : string) : string * string := (k, v).

(** Modelled from the spec: the commit store ([lastTriggeredCommitStore],
    not among the sources) is a bounded least-recently-used cache from
    application id to commit hash; [Put] inserts unconditionally and makes
    no remote call.  The entries are kept most recent first and the oldest
    ones fall out beyond the capacity fixed in [NewTrigger]. *)
Record lastTriggeredCommitStore := {
  cache : list (string * string);
}.

Definition cache_Put (k v : string) (l : list (string * string))
  : list (string * string) :=
  take defaultLastTriggeredCommitCacheSize
       ((k, v) :: filter (λ e, e.1 ≠ k) l).

Fixpoint cache_Peek (k : string) (l : list (string * string)) : option string :=
  match l with
  | [] => None
  | (k', v) :: l' => if decide (k' = k) then Some v else cache_Peek k l'
  end.

Definition store_Put (appId hash : string) (s : lastTriggeredCommitStore)
  : lastTriggeredCommitStore :=
  {| cache := cache_Put appId hash (cache s) |}.

Definition store_entry (appId : string) (s : lastTriggeredCommitStore)
  : option string :=
  cache_Peek appId (cache s).

(** [git.Repo], a cloned working copy, by the four methods that trigger.go
    calls on it.  [Pull] and [GetLatestCommit] go to the remote. *)
Record Repo := {
  GetPath : string;
  GetClonedBranch : string;
  Pull : History → string → option error;
  GetLatestCommit : History → Commit + error;
}.

(** What is mutable in a [Trigger]: the commit store, the map of cloned
    repositories (filled by [Run]) and, for the model, the trace. *)
Record State := {
  commitStore : lastTriggeredCommitStore;
  gitRepos : gmap string Repo;
  trace : History;
}.

Definition M (A : Type) : Type := State → A * State.

Definition ret {A} (a : A) : M A := λ s, (a, s).

Definition bind {A B} (m : M A) (k : A → M B) : M B :=
  λ s, let (a, s') := m s in k a s'.

Declare Scope trigger_scope.
Delimit Scope trigger_scope with trigger.
Notation "x <- m ;; k" := (bind m (λ x, k))
  (at level 100, m at next level, right associativity) : trigger_scope.
Notation "m ;;; k" := (bind m (λ _, k))
  (at level 100, right associativity) : trigger_scope.
Open Scope trigger_scope.

Definition emit (e : Event) : M unit :=
  λ s, (tt, {| commitStore := commitStore s;
               gitRepos := gitRepos s;
               trace := trace s ++ [e] |}).

(** Ask the outside world: the answer depends on what happened so far. *)
Definition ask {A} (oracle : History → A) : M A :=
  λ s, (oracle (trace s), s).

Definition getRepos : M (gmap string Repo) := λ s, (gitRepos s, s).

Definition setRepo (repoID : string) (r : Repo) : M unit :=
  λ s, (tt, {| commitStore := commitStore s;
               gitRepos := <[repoID := r]> (gitRepos s);
               trace := trace s |}).

Definition resetRepos : M unit :=
  λ s, (tt, {| commitStore := commitStore s; gitRepos := ∅; trace := trace s |}).

Definition getStore : M lastTriggeredCommitStore := λ s, (commitStore s, s).

Definition setStore (st : lastTriggeredCommitStore) : M unit :=
  λ s, (tt, {| commitStore := st; gitRepos := gitRepos s; trace := trace s |}).

Fixpoint forEach {A} (l : list A) (body : A → M unit) : M unit :=
  match l with
  | [] => ret tt
  | x :: l' => body x ;;; forEach l' body
  end.

Definition logger (lvl : LogLevel) (msg : string) (fields : list (string * string))
  : M unit :=
  emit (EvLog lvl msg fields).

Definition commitStore_Put (appId hash : string) : M unit :=
  emit (EvCommitStorePut appId hash) ;;;
  st <- getStore ;;
  setStore (store_Put appId hash st).

(** ** Collaborators *)

Inductive ctxError := Canceled | DeadlineExceeded.

Global Instance ctxError_eq_dec : EqDecision ctxError.
Proof. solve_decision. Defined.

(** [context.Context]: all the trigger asks of it is [Err()]. *)
Record Context := {
  ctx_Err : History → option ctxError;
}.

Record apiClient := {
  CreateDeployment : History → Deployment → string + error;
}.

Record gitClient := {
  Clone : History → string → string → string → string → Repo + error;
}.

Record applicationLister := {
  applicationLister_Get : History → string → option Application;
  applicationLister_List : History → list Application;
}.

Record commandLister := {
  ListApplicationCommands : History → list ReportableCommand;
}.

Record environmentLister := {
  environmentLister_Get : History → string → Environment + error;
}.

(** Modelled from the spec: the determiners are not among the sources.  A
    determiner answers whether a deployment should be triggered for an
    application and its configuration, or fails; the one for commits
    consults the commit store, whose cache it may thereby fill. *)
Record Determiner := {
  ShouldTrigger : History → lastTriggeredCommitStore → Application →
                  GenericDeploymentSpec →
                  (bool + error) * lastTriggeredCommitStore;
}.

(** Modelled from the spec: "OnCommand: always returns true" and
    "OnOutOfSync: always returns true". *)
Definition OnCommandDeterminer : Determiner :=
  {| ShouldTrigger := λ _ st _ _, (inl true, st) |}.

Definition OnOutOfSyncDeterminer : Determiner :=
  {| ShouldTrigger := λ _ st _ _, (inl true, st) |}.

Record determiners := {
  onCommand : Determiner;
  onOutOfSync : Determiner;
  onCommit : Determiner;
}.

Definition determiners_Determiner (ds : determiners) (k : candidateKind)
  : Determiner :=
  match k with
  | commandCandidate => onCommand ds
  | outOfSyncCandidate => onOutOfSync ds
  | commitCandidate => onCommit ds
  end.

(** The functions of other packages that trigger.go calls and that are
    taken as given: the YAML loader (which reads the file system), the
    kind conversion, path joining, the on-commit policy and the report
    method of a command. *)
Record World := {
  config_LoadFromYAML : History → string → Config + error;
  config_ToApplicationKind : string → ApplicationKind * bool;
  filepath_Join : string → string → string;
  NewOnCommitDeterminer : Repo → string → Determiner;
  command_Report : History → ReportableCommand → CommandStatus →
                   gmap string string → option error;
}.

Record Trigger := {
  t_apiClient : apiClient;
  t_gitClient : gitClient;
  t_applicationLister : applicationLister;
  t_commandLister : commandLister;
  t_environmentLister : environmentLister;
  t_config : PipedSpec;
  t_gracePeriod : Z;
}.

(** [NewTrigger]: the commit store starts with an empty cache and the map
    of repositories is empty until [Run] clones them. *)
Definition NewTrigger (api : apiClient) (gc : gitClient)
    (appLister : applicationLister) (cmdLister : commandLister)
    (envLister : environmentLister) (cfg : PipedSpec) (gracePeriod : Z)
  : Trigger * State :=
  ({| t_apiClient := api; t_gitClient := gc;
      t_applicationLister := appLister; t_commandLister := cmdLister;
      t_environmentLister := envLister; t_config := cfg;
      t_gracePeriod := gracePeriod |},
   {| commitStore := {| cache := [] |}; gitRepos := ∅; trace := [] |}).

(** Go leaves the order of [range] over a map unspecified: an iteration
    visits every entry once, in some order. *)
Record MapRange := {
  range : gmap string (list candidate) → list (string * list candidate);
  range_perm : ∀ m, range m ≡ₚ map_to_list m;
}.

(** ** trigger.go: the functions *)

Section trigger.
Context (w : World) (t : Trigger).

Definition loadDeploymentConfiguration (repoPath : string) (app : Application)
  : M (GenericDeploymentSpec + error) :=
  let relPath := GetDeploymentConfigFilePath (GitPath app) in
  let absPath := filepath_Join w repoPath relPath in
  emit (EvLoadFromYAML absPath) ;;;
  r <- ask (λ h, config_LoadFromYAML w h absPath) ;;
  match r with
  | inr err =>
      if os_IsNotExist err
      then ret (inr (Errorf ("application config file " +:+ relPath +:+
                             " was not found in Git")))
      else ret (inr err)
  | inl cfg =>
      let '(appKind, ok) := config_ToApplicationKind w (Kind cfg) in
      if negb ok || negb (bool_decide (appKind = App_Kind app))
      then ret (inr (Errorf
             ("invalid application kind in the deployment config file, got: "
              +:+ ApplicationKind_String appKind +:+ ", expected: "
              +:+ ApplicationKind_String (App_Kind app))))
      else
        match GetGenericDeployment cfg with
        | None => ret (inr (Errorf ("unsupported application kind: " +:+
                                    ApplicationKind_String (App_Kind app))))
        | Some spec => ret (inl spec)
        end
  end.

(** updateRepoToLatest ensures that the local data of the given Git
    repository is up to date. *)
Definition updateRepoToLatest (repoID : string)
  : M (Repo * string * Commit + error) :=
  repos <- getRepos ;;
  match repos !! repoID with
  | None =>
      ret (inr (Errorf "the repository was not registered in Piped configuration"))
  | Some repo =>
      let branch := GetClonedBranch repo in
      emit (EvPull repoID branch) ;;;
      r <- ask (λ h, Pull repo h branch) ;;
      match r with
      | Some err => ret (inr err)
      | None =>
          emit (EvGetLatestCommit repoID) ;;;
          r <- ask (GetLatestCommit repo) ;;
          match r with
          | inr err => ret (inr err)
          | inl headCommit => ret (inl (repo, branch, headCommit))
          end
      end
  end.

(** Modelled from the spec: [triggerDeployment] is not among the sources.
    The deployment is "constructed from application, config, branch, head
    commit, optional commander and a sync strategy" and submitted with
    [CreateDeployment]; "the control plane assigns the deployment id; the
    trigger only reads it back". *)
Definition buildDeployment (app : Application) (branch : string)
    (commit : Commit) (commander : string) (strategy : SyncStrategy)
  : Deployment :=
  {| Deployment_Id := "";
     Deployment_ApplicationId := App_Id app;
     Deployment_ApplicationName := App_Name app;
     Deployment_EnvId := App_EnvId app;
     Deployment_Kind := App_Kind app;
     Trigger_Branch := branch;
     Trigger_Commit := commit;
     Trigger_Commander := commander;
     Trigger_SyncStrategy := strategy |}.

Definition withId (d : Deployment) (id : string) : Deployment :=
  {| Deployment_Id := id;
     Deployment_ApplicationId := Deployment_ApplicationId d;
     Deployment_ApplicationName := Deployment_ApplicationName d;
     Deployment_EnvId := Deployment_EnvId d;
     Deployment_Kind := Deployment_Kind d;
     Trigger_Branch := Trigger_Branch d;
     Trigger_Commit := Trigger_Commit d;
     Trigger_Commander := Trigger_Commander d;
     Trigger_SyncStrategy := Trigger_SyncStrategy d |}.

Definition triggerDeployment (app : Application)
    (appCfg : GenericDeploymentSpec) (branch : string) (commit : Commit)
    (commander : string) (strategy : SyncStrategy)
  : M (Deployment + error) :=
  let d := buildDeployment app branch commit commander strategy in
  emit (EvCreateDeployment d) ;;;
  r <- ask (λ h, CreateDeployment (t_apiClient t) h d) ;;
  match r with
  | inr err => ret (inr err)
  | inl id => ret (inl (withId d id))
  end.

Definition notifyDeploymentTriggered (appCfg : GenericDeploymentSpec)
    (d : Deployment) : M unit :=
  let mentions :=
    match DeploymentNotification_ appCfg with
    | Some n => FindSlackAccounts n EVENT_DEPLOYMENT_TRIGGERED
    | None => []
    end in
  emit (EvEnvironmentGet (Deployment_EnvId d)) ;;;
  r <- ask (λ h, environmentLister_Get (t_environmentLister t) h
                   (Deployment_EnvId d)) ;;
  match r with
  | inl env =>
      emit (EvNotify
        {| Type_ := EVENT_DEPLOYMENT_TRIGGERED;
           Metadata := NotificationEventDeploymentTriggered
                         d (Env_Name env) mentions |})
  | inr _ => ret tt
  end.

Definition notifyDeploymentTriggerFailed (app : Application) (reason : string)
    (commit : Commit) : M unit :=
  emit (EvNotify
    {| Type_ := EVENT_DEPLOYMENT_TRIGGER_FAILED;
       Metadata := NotificationEventDeploymentTriggerFailed
                     app (Hash commit) (Message commit) reason |}).

Definition callShouldTrigger (d : Determiner) (k : candidateKind)
    (app : Application) (appCfg : GenericDeploymentSpec)
  : M (bool + error) :=
  emit (EvShouldTrigger k app) ;;;
  st <- getStore ;;
  r <- ask (λ h, ShouldTrigger d h st app appCfg) ;;
  setStore r.2 ;;;
  ret r.1.

Definition callReport (cmd : ReportableCommand) (status : CommandStatus)
    (metadata : gmap string string) : M (option error) :=
  emit (EvReport cmd status metadata) ;;;
  ask (λ h, command_Report w h cmd status metadata).

(** The body of the loop of [checkRepoCandidates]: one candidate.  Every
    [continue] of the source ends the body. *)
Definition checkCandidate (gitRepo : Repo) (branch : string)
    (headCommit : Commit) (ds : determiners) (c : candidate) : M unit :=
  let app := application c in
  r <- loadDeploymentConfiguration (GetPath gitRepo) app ;;
  match r with
  | inr err =>
      logger Error_ "failed to load application config file" [zap_Error err]
  | inl appCfg =>
      r <- callShouldTrigger (determiners_Determiner ds (kind c)) (kind c)
                             app appCfg ;;
      match r with
      | inr err =>
          let msg := "failed while determining whether application "
                     +:+ App_Name app
                     +:+ " should be triggered or not: " +:+ Error err in
          notifyDeploymentTriggerFailed app msg headCommit ;;;
          logger Error_ msg [zap_Error err]
      | inl false =>
          commitStore_Put (App_Id app) (Hash headCommit)
      | inl true =>
          r <- triggerDeployment app appCfg branch headCommit ""
                                 SyncStrategy_AUTO ;;
          match r with
          | inr err =>
              let msg := "failed to trigger application " +:+ App_Id app
                         +:+ ": " +:+ Error err in
              notifyDeploymentTriggerFailed app msg headCommit ;;;
              logger Error_ msg [zap_Error err]
          | inl deployment =>
              commitStore_Put (App_Id app) (Hash headCommit) ;;;
              notifyDeploymentTriggered appCfg deployment ;;;
              if decide (kind c = commandCandidate) then
                let metadata : gmap string string :=
                  {[ triggeredDeploymentIDKey := Deployment_Id deployment ]} in
                r <- callReport (command c) COMMAND_SUCCEEDED metadata ;;
                match r with
                | Some err =>
                    logger Error_ "failed to report command status"
                           [zap_Error err]
                | None => ret tt
                end
              else ret tt
          end
      end
  end.

Definition checkRepoCandidates (ctx : Context) (repoID : string)
    (cs : list candidate) : M (option error) :=
  r <- updateRepoToLatest repoID ;;
  match r with
  | inr err =>
      cerr <- ask (ctx_Err ctx) ;;
      (if decide (cerr = Some Canceled) then ret tt
       else logger Error_ ("failed to update git repository " +:+ repoID
                           +:+ " to latest") [zap_Error err]) ;;;
      ret (Some err)
  | inl (gitRepo, branch, headCommit) =>
      let ds := {| onCommand := OnCommandDeterminer;
                   onOutOfSync := OnOutOfSyncDeterminer;
                   onCommit := NewOnCommitDeterminer w gitRepo
                                 (Hash headCommit) |} in
      forEach cs (checkCandidate gitRepo branch headCommit ds) ;;;
      ret None
  end.

(** The first loop of [checkCandidates]: group the candidates by
    repository. *)
Definition groupByRepo (cs : list candidate) : gmap string (list candidate) :=
  foldl (λ csm c,
           let repoId := Repo_Id (GitPath (application c)) in
           match csm !! repoId with
           | None => <[repoId := [c]]> csm
           | Some l => <[repoId := l ++ [c]]> csm
           end) ∅ cs.

(** The second loop: check each repository; only the last error is kept. *)
Fixpoint checkGroups (ctx : Context) (groups : list (string * list candidate))
    (err : option error) : M (option error) :=
  match groups with
  | [] => ret err
  | (repoID, cs) :: rest =>
      e <- checkRepoCandidates ctx repoID cs ;;
      match e with
      | Some e' =>
          logger Error_ ("failed while checking applications in repo "
                         +:+ repoID) [zap_Error e'] ;;;
          checkGroups ctx rest (Some e')
      | None => checkGroups ctx rest err
      end
  end.

Definition checkCandidates (rg : MapRange) (ctx : Context)
    (cs : list candidate) : M (option error) :=
  let csm := groupByRepo cs in
  checkGroups ctx (range rg csm) None.

(** listCommandCandidates finds all applications that have been commanded
    to sync. *)
Fixpoint listCommandCandidates_range (cmds : list ReportableCommand)
    (apps : list candidate) : M (list candidate) :=
  match cmds with
  | [] => ret apps
  | cmd :: rest =>
      match GetSyncApplication cmd with
      | None => listCommandCandidates_range rest apps
      | Some syncCmd =>
          r <- ask (λ h, applicationLister_Get (t_applicationLister t) h
                           (ApplicationId syncCmd)) ;;
          match r with
          | None =>
              logger Warn
                "detected an AppSync command for an unregistered application"
                [zap_String "command" (Command_Id cmd);
                 zap_String "app-id" (ApplicationId syncCmd);
                 zap_String "commander" (Commander cmd)] ;;;
              listCommandCandidates_range rest apps
          | Some app =>
              listCommandCandidates_range rest
                (apps ++ [{| application := app; kind := commandCandidate;
                             command := cmd |}])
          end
      end
  end.

Definition listCommandCandidates : M (list candidate) :=
  cmds <- ask (ListApplicationCommands (t_commandLister t)) ;;
  listCommandCandidates_range cmds [].

(** listOutOfSyncCandidates finds all applications that are staying at
    OUT_OF_SYNC state. *)
Fixpoint listOutOfSyncCandidates_range (lst : list Application)
    (apps : list candidate) : list candidate :=
  match lst with
  | [] => apps
  | app :: rest =>
      if decide (SyncState_Status app ≠ OUT_OF_SYNC)
      then listOutOfSyncCandidates_range rest apps
      else listOutOfSyncCandidates_range rest
             (apps ++ [{| application := app; kind := outOfSyncCandidate;
                          command := ReportableCommand_zero |}])
  end.

Definition listOutOfSyncCandidates : M (list candidate) :=
  lst <- ask (applicationLister_List (t_applicationLister t)) ;;
  ret (listOutOfSyncCandidates_range lst []).

(** listCommitCandidates: all applications managed by this piped. *)
Fixpoint listCommitCandidates_range (lst : list Application)
    (apps : list candidate) : list candidate :=
  match lst with
  | [] => apps
  | app :: rest =>
      listCommitCandidates_range rest
        (apps ++ [{| application := app; kind := commitCandidate;
                     command := ReportableCommand_zero |}])
  end.

Definition listCommitCandidates : M (list candidate) :=
  lst <- ask (applicationLister_List (t_applicationLister t)) ;;
  ret (listCommitCandidates_range lst []).

(** ** Run *)

(** Pre cloning to cache the registered git repositories. *)
Fixpoint cloneRepositories (rs : list PipedRepository) : M (option error) :=
  match rs with
  | [] => ret None
  | r :: rest =>
      emit (EvClone (RepoID r) (Remote r) (Branch r) "") ;;;
      res <- ask (λ h, Clone (t_gitClient t) h (RepoID r) (Remote r)
                         (Branch r) "") ;;
      match res with
      | inr err =>
          logger Error_ ("failed to clone git repository " +:+ RepoID r)
                 [zap_Error err] ;;;
          ret (Some err)
      | inl repo => setRepo (RepoID r) repo ;;; cloneRepositories rest
      end
  end.

(** The case of [select] that fires. *)
Inductive Select := syncTicker_C | ondemandTicker_C | ctx_Done.

(** The body of the case [<-syncTicker.C]. *)
Definition onSyncTick (rg : MapRange) (ctx : Context) : M (option error) :=
  commitCandidates <- listCommitCandidates ;;
  outOfSyncCandidates <- listOutOfSyncCandidates ;;
  let candidates := commitCandidates ++ outOfSyncCandidates in
  logger Info ("found " +:+ pretty (length candidates)
               +:+ " candidates: " +:+ pretty (length commitCandidates)
               +:+ " commit candidates and "
               +:+ pretty (length outOfSyncCandidates)
               +:+ " out_of_sync candidates") [] ;;;
  checkCandidates rg ctx candidates.

(** The body of the case [<-ondemandTicker.C]. *)
Definition onOndemandTick (rg : MapRange) (ctx : Context) : M (option error) :=
  candidates <- listCommandCandidates ;;
  logger Info ("found " +:+ pretty (length candidates)
               +:+ " command candidates") [] ;;;
  checkCandidates rg ctx candidates.

(** The [for { select { ... } }] of [Run], along the cases that fire.
    [Some r] is the value [Run] returns; [None] says that the loop is
    still waiting after the last of them. *)
Fixpoint runLoop (rg : MapRange) (ctx : Context) (sel : list Select)
  : M (option (option error)) :=
  match sel with
  | [] => ret None
  | syncTicker_C :: rest => onSyncTick rg ctx ;;; runLoop rg ctx rest
  | ondemandTicker_C :: rest => onOndemandTick rg ctx ;;; runLoop rg ctx rest
  | ctx_Done :: _ =>
      logger Info "deployment trigger has been stopped" [] ;;;
      ret (Some None)
  end.

Definition Run (rg : MapRange) (ctx : Context) (sel : list Select)
  : M (option (option error)) :=
  logger Info "start running deployment trigger" [] ;;;
  resetRepos ;;;
  r <- cloneRepositories (Repositories (t_config t)) ;;
  match r with
  | Some err => ret (Some (Some err))
  | None => runLoop rg ctx sel
  end.

End trigger.

(** ** Reading a trace *)

Definition addEvents (s : State) (evs : list Event) : State :=
  {| commitStore := commitStore s; gitRepos := gitRepos s;
     trace := trace s ++ evs |}.

(** The events a computation added, given the states around it. *)
Definition newEvents (s s' : State) : list Event :=
  drop (length (trace s)) (trace s').

Definition pulls (evs : list Event) : list string :=
  omap (λ e, match e with EvPull r _ => Some r | _ => None end) evs.

Definition latestCommitCalls (evs : list Event) : list string :=
  omap (λ e, match e with EvGetLatestCommit r => Some r | _ => None end) evs.

Definition loads (evs : list Event) : list string :=
  omap (λ e, match e with EvLoadFromYAML p => Some p | _ => None end) evs.

Definition evaluations (evs : list Event) : list (candidateKind * Application) :=
  omap (λ e, match e with EvShouldTrigger k a => Some (k, a) | _ => None end) evs.

Definition notifications (evs : list Event) : list NotificationEvent :=
  omap (λ e, match e with EvNotify n => Some n | _ => None end) evs.

Definition createdDeployments (evs : list Event) : list Deployment :=
  omap (λ e, match e with EvCreateDeployment d => Some d | _ => None end) evs.

Definition puts (evs : list Event) : list (string * string) :=
  omap (λ e, match e with EvCommitStorePut a h => Some (a, h) | _ => None end) evs.

Definition reports (evs : list Event)
  : list (ReportableCommand * CommandStatus * gmap string string) :=
  omap (λ e, match e with EvReport c st m => Some (c, st, m) | _ => None end) evs.

(** The absolute path [loadDeploymentConfiguration] reads for a candidate. *)
Definition configPath (w : World) (gitRepo : Repo) (c : candidate) : string :=
  filepath_Join w (GetPath gitRepo)
    (GetDeploymentConfigFilePath (GitPath (application c))).

Definition triggerFailed (app : Application) (reason : string) (commit : Commit)
  : NotificationEvent :=
  {| Type_ := EVENT_DEPLOYMENT_TRIGGER_FAILED;
     Metadata := NotificationEventDeploymentTriggerFailed
                   app (Hash commit) (Message commit) reason |}.

Definition determinersOf (w : World) (gitRepo : Repo) (headCommit : Commit)
  : determiners :=
  {| onCommand := OnCommandDeterminer;
     onOutOfSync := OnOutOfSyncDeterminer;
     onCommit := NewOnCommitDeterminer w gitRepo (Hash headCommit) |}.

Definition notRegistered : error :=
  Errorf "the repository was not registered in Piped configuration".

(** What [checkRepoCandidates] logs when the update of the repository
    failed: nothing while shutting down. *)
Definition updateFailureLog (ctx : Context) (repoID : string) (err : error)
    (h : History) : list Event :=
  if decide (ctx_Err ctx h = Some Canceled) then []
  else [EvLog Error_ ("failed to update git repository " +:+ repoID
                      +:+ " to latest") [zap_Error err]].

Definition groupFailureLog (repoID : string) (err : error) : Event :=
  EvLog Error_ ("failed while checking applications in repo " +:+ repoID)
        [zap_Error err].


(** The two reasons [checkRepoCandidates] formats for a failed trigger. *)
Definition determineFailedMsg (app : Application) (err : error) : string :=
  "failed while determining whether application " +:+ App_Name app
  +:+ " should be triggered or not: " +:+ Error err.

Definition triggerFailedMsg (app : Application) (err : error) : string :=
  "failed to trigger application " +:+ App_Id app +:+ ": " +:+ Error err.

(** The events of [notifyDeploymentTriggered] for deployment [d], when the
    trace before it is [h]. *)
Definition notifyEvents (t : Trigger) (appCfg : GenericDeploymentSpec)
    (d : Deployment) (h : History) : list Event :=
  EvEnvironmentGet (Deployment_EnvId d) ::
  match environmentLister_Get (t_environmentLister t)
          (h ++ [EvEnvironmentGet (Deployment_EnvId d)])
          (Deployment_EnvId d) with
  | inl env =>
      [EvNotify
         {| Type_ := EVENT_DEPLOYMENT_TRIGGERED;
            Metadata := NotificationEventDeploymentTriggered d (Env_Name env)
              match DeploymentNotification_ appCfg with
              | Some n => FindSlackAccounts n EVENT_DEPLOYMENT_TRIGGERED
              | None => []
              end |}]
  | inr _ => []
  end.

Global Arguments notifyEvents : simpl never.

Definition reportMetadata (d : Deployment) : gmap string string :=
  {[ triggeredDeploymentIDKey := Deployment_Id d ]}.

(** The events of the command report that ends the loop body, when the
    trace before it is [h]. *)
Definition reportEvents (w : World) (c : candidate) (d : Deployment)
    (h : History) : list Event :=
  if decide (kind c = commandCandidate) then
    EvReport (command c) COMMAND_SUCCEEDED (reportMetadata d) ::
    match command_Report w
            (h ++ [EvReport (command c) COMMAND_SUCCEEDED (reportMetadata d)])
            (command c) COMMAND_SUCCEEDED (reportMetadata d) with
    | Some err =>
        [EvLog Error_ "failed to report command status" [zap_Error err]]
    | None => []
    end
  else [].

Global Arguments reportEvents : simpl never.

(** The events of the loop body after [triggerDeployment] succeeded with
    [d], when the trace before them is [h]. *)
Definition triggeredEvents (w : World) (t : Trigger) (c : candidate)
    (appCfg : GenericDeploymentSpec) (headCommit : Commit) (d : Deployment)
    (h : History) : list Event :=
  let put := EvCommitStorePut (App_Id (application c)) (Hash headCommit) in
  let ns := notifyEvents t appCfg d (h ++ [put]) in
  put :: ns ++ reportEvents w c d (h ++ put :: ns).

Global Arguments triggeredEvents : simpl never.

Definition repoOf (c : candidate) : string :=
  Repo_Id (GitPath (application c)).

(** Whether a repository is in the map of cloned repositories. *)
Definition registered (s : State) (repoID : string) : bool :=
  bool_decide (is_Some (gitRepos s !! repoID)).

(** The candidates the collectors build for an application. *)
Definition commitCandidateOf (a : Application) : candidate :=
  {| application := a; kind := commitCandidate;
     command := ReportableCommand_zero |}.

Definition outOfSyncCandidateOf (a : Application) : candidate :=
  {| application := a; kind := outOfSyncCandidate;
     command := ReportableCommand_zero |}.

(** No commit candidate comes after an out-of-sync candidate. *)
Fixpoint commitsBeforeOutOfSync (ks : list candidateKind) : bool :=
  match ks with
  | [] => true
  | outOfSyncCandidate :: rest =>
      forallb (λ k, negb (bool_decide (k = commitCandidate))) rest
      && commitsBeforeOutOfSync rest
  | _ :: rest => commitsBeforeOutOfSync rest
  end.

(** The ways [loadDeploymentConfiguration] fails, by what the YAML loader
    answered, each with the error it returns for an application. *)
Inductive ConfigLoadFailure (w : World) (app : Application)
  : Config + error → error → Prop :=
| ConfigFileMissing p :
    ConfigLoadFailure w app (inr (ErrNotExist p))
      (Errorf ("application config file "
               +:+ GetDeploymentConfigFilePath (GitPath app)
               +:+ " was not found in Git"))
| ConfigUnreadable msg :
    ConfigLoadFailure w app (inr (Errorf msg)) (Errorf msg)
| ConfigKindMismatch cfg :
    (config_ToApplicationKind w (Kind cfg)).2 = false
    ∨ (config_ToApplicationKind w (Kind cfg)).1 ≠ App_Kind app →
    ConfigLoadFailure w app (inl cfg)
      (Errorf ("invalid application kind in the deployment config file, got: "
               +:+ ApplicationKind_String
                     (config_ToApplicationKind w (Kind cfg)).1
               +:+ ", expected: " +:+ ApplicationKind_String (App_Kind app)))
| ConfigUnsupportedKind cfg :
    config_ToApplicationKind w (Kind cfg) = (App_Kind app, true) →
    GetGenericDeployment cfg = None →
    ConfigLoadFailure w app (inl cfg)
      (Errorf ("unsupported application kind: "
               +:+ ApplicationKind_String (App_Kind app))).

(** The two failures of a candidate that are notified: the determiner
    failed, or the deployment could not be created.  [sf] is the state
    right after the call that failed, [msg] the reason formatted for it. *)
Inductive TriggerFailure (w : World) (t : Trigger) (gitRepo : Repo)
    (branch : string) (headCommit : Commit) (ds : determiners)
    (c : candidate) (s : State) : State → string → error → Prop :=
| DetermineFailure appCfg s1 err s2 :
    loadDeploymentConfiguration w (GetPath gitRepo) (application c) s
      = (inl appCfg, s1) →
    callShouldTrigger (determiners_Determiner ds (kind c)) (kind c)
      (application c) appCfg s1 = (inr err, s2) →
    TriggerFailure w t gitRepo branch headCommit ds c s
      s2 (determineFailedMsg (application c) err) err
| CreateDeploymentFailure appCfg s1 s2 err s3 :
    loadDeploymentConfiguration w (GetPath gitRepo) (application c) s
      = (inl appCfg, s1) →
    callShouldTrigger (determiners_Determiner ds (kind c)) (kind c)
      (application c) appCfg s1 = (inl true, s2) →
    triggerDeployment t (application c) appCfg branch headCommit ""
      SyncStrategy_AUTO s2 = (inr err, s3) →
    TriggerFailure w t gitRepo branch headCommit ds c s
      s3 (triggerFailedMsg (application c) err) err.

(** What [checkRepoCandidates] returned for each group of an iteration
    of [checkCandidates] that starts in state [s], in the order of the
    iteration. *)
Fixpoint groupResults (w : World) (t : Trigger) (ctx : Context)
    (groups : list (string * list candidate)) (s : State)
  : list (option error) :=
  match groups with
  | [] => []
  | (repoID, cs) :: rest =>
      let (e, s') := checkRepoCandidates w t ctx repoID cs s in
      e :: groupResults w t ctx rest
             match e with
             | Some e' => addEvents s' [groupFailureLog repoID e']
             | None => s'
             end
  end.

(** The last error of a list of results, if any. *)
Definition lastError (rs : list (option error)) : option error :=
  last (omap id rs).

(** ** A small installation, to run the trigger on *)

Module Ex.

Definition head : Commit :=
  {| Hash := "H1"; Message := "bump image"; Author := "dev"; CreatedAt := 0 |}.

Definition repo (path : string) : Repo :=
  {| GetPath := path;
     GetClonedBranch := "master";
     Pull := λ _ _, None;
     GetLatestCommit := λ _, inl head |}.

(** A working copy whose fetch fails. *)
Definition brokenRepo (path : string) : Repo :=
  {| GetPath := path;
     GetClonedBranch := "master";
     Pull := λ _ _, Some (Errorf "fetch failed");
     GetLatestCommit := λ _, inl head |}.

Definition app (id repoId : string) (status : ApplicationSyncStatus)
  : Application :=
  {| App_Id := id;
     App_Name := id;
     App_Kind := KUBERNETES;
     App_EnvId := "env-1";
     GitPath := {| Repo_Id := repoId;
                   GetDeploymentConfigFilePath := id +:+ "/.pipe.yaml" |};
     SyncState_Status := status |}.

Definition a1 : Application := app "a1" "r1" OUT_OF_SYNC.
Definition a2 : Application := app "a2" "r2" OUT_OF_SYNC.
Definition a3 : Application := app "a3" "r1" SYNCED.
Definition bad : Application := app "bad" "r1" SYNCED.

Definition kubernetesCfg : Config :=
  {| Kind := "KubernetesApp";
     GetGenericDeployment := Some {| DeploymentNotification_ := None |} |}.

Definition terraformCfg : Config :=
  {| Kind := "TerraformApp";
     GetGenericDeployment := Some {| DeploymentNotification_ := None |} |}.

(** The on-commit policy at its minimum: trigger when the head differs
    from the recorded hash. *)
Definition onCommitByHash (headHash : string) : Determiner :=
  {| ShouldTrigger := λ _ st a _,
       (inl (bool_decide (store_entry (App_Id a) st ≠ Some headHash)), st) |}.

Definition failingDeterminer : Determiner :=
  {| ShouldTrigger := λ _ st _ _, (inr (Errorf "cannot list changed files"), st) |}.

(** The configuration of a3 is missing, the one at "/repos/r1/bad" declares
    another kind; every other file is a Kubernetes deployment. *)
Definition world (onCommit : string → Determiner)
    (report : option error) : World :=
  {| config_LoadFromYAML := λ _ p,
       if decide (p = "/repos/r1/a3/.pipe.yaml") then inr (ErrNotExist p)
       else if decide (p = "/repos/r1/bad/.pipe.yaml") then inl terraformCfg
       else inl kubernetesCfg;
     config_ToApplicationKind := λ k,
       if decide (k = "KubernetesApp") then (KUBERNETES, true)
       else if decide (k = "TerraformApp") then (TERRAFORM, true)
       else (KUBERNETES, false);
     filepath_Join := λ a b, a +:+ "/" +:+ b;
     NewOnCommitDeterminer := λ _ h, onCommit h;
     command_Report := λ _ _ _ _, report |}.

Definition w0 : World := world onCommitByHash None.

(** The on-commit determiner fails. *)
Definition wFailing : World := world (λ _, failingDeterminer) None.

(** Reporting a command fails. *)
Definition wNoReport : World :=
  world onCommitByHash (Some (Errorf "report refused")).

Definition trigger (create : string + error) (env : Environment + error)
    (apps : list Application) (cmds : list ReportableCommand) : Trigger :=
  {| t_apiClient := {| CreateDeployment := λ _ _, create |};
     t_gitClient := {| Clone := λ _ id _ _ _, inl (repo ("/repos/" +:+ id)) |};
     t_applicationLister :=
       {| applicationLister_Get := λ _ id,
            list_find (λ a, App_Id a = id) apps ≫= λ r, Some r.2;
          applicationLister_List := λ _, apps |};
     t_commandLister := {| ListApplicationCommands := λ _, cmds |};
     t_environmentLister := {| environmentLister_Get := λ _ _, env |};
     t_config :=
       {| Repositories :=
            [ {| RepoID := "r1"; Remote := "git@host:r1"; Branch := "master" |};
              {| RepoID := "r2"; Remote := "git@host:r2"; Branch := "master" |} ];
          SyncInterval := 60 |};
     t_gracePeriod := 30 |}.

Definition dev : Environment := {| Env_Id := "env-1"; Env_Name := "dev" |}.

Definition syncCmd : ReportableCommand :=
  {| Command_Id := "cmd-1"; Commander := "alice";
     GetSyncApplication :=
       Some {| ApplicationId := "a1";
               Sync_SyncStrategy := SyncStrategy_PIPELINE |} |}.

Definition t0 : Trigger := trigger (inl "d-42") (inl dev) [a1; a2] [syncCmd].

(** The control plane refuses every deployment. *)
Definition tRefused : Trigger :=
  trigger (inr (Errorf "unavailable")) (inl dev) [a1; a2] [syncCmd].

(** The environment lister fails. *)
Definition tNoEnv : Trigger :=
  trigger (inl "d-42") (inr (Errorf "env not found")) [a1; a2] [syncCmd].

Definition ctx : Context := {| ctx_Err := λ _, None |}.

(** Both repositories cloned, nothing triggered yet. *)
Definition s0 : State :=
  {| commitStore := {| cache := [] |};
     gitRepos := {[ "r1" := repo "/repos/r1"; "r2" := repo "/repos/r2" ]};
     trace := [] |}.

(** Only r1 is a repository of this piped. *)
Definition sOnlyR1 : State :=
  {| commitStore := {| cache := [] |};
     gitRepos := {[ "r1" := repo "/repos/r1" ]};
     trace := [] |}.

(** No repository cloned. *)
Definition sEmpty : State :=
  {| commitStore := {| cache := [] |}; gitRepos := ∅; trace := [] |}.

(** The working copy of r1 cannot be fetched. *)
Definition sBroken : State :=
  {| commitStore := {| cache := [] |};
     gitRepos := {[ "r1" := brokenRepo "/repos/r1"; "r2" := repo "/repos/r2" ]};
     trace := [] |}.

Definition commandOf (a : Application) (cmd : ReportableCommand) : candidate :=
  {| application := a; kind := commandCandidate; command := cmd |}.

(** Two orders in which a map may be ranged over. *)
Definition ascending : MapRange :=
  {| range := map_to_list; range_perm := λ m, reflexivity (map_to_list m) |}.

Definition descending : MapRange :=
  {| range := λ m, reverse (map_to_list m);
     range_perm := λ m, reverse_Permutation (map_to_list m) |}.

End Ex.

(** ** More readings of a trace *)

Definition clones (evs : list Event) : list string :=
  omap (λ e, match e with EvClone r _ _ _ => Some r | _ => None end) evs.

Definition logged (evs : list Event)
  : list (LogLevel * string * list (string * string)) :=
  omap (λ e, match e with EvLog l m f => Some (l, m, f) | _ => None end) evs.

(** The deployment [checkRepoCandidates] asks [triggerDeployment] for. *)
Definition requested (c : candidate) (branch : string) (headCommit : Commit)
  : Deployment :=
  buildDeployment (application c) branch headCommit "" SyncStrategy_AUTO.

(** The ways through the body of the loop of [checkRepoCandidates], by the
    events each adds to a trace [h]: one per [continue] of the source and
    one for the end of the body. *)
Inductive CandidateOutcome (w : World) (t : Trigger) (gitRepo : Repo)
    (branch : string) (headCommit : Commit) (c : candidate) (h : History)
  : list Event → Prop :=
| OutConfigFailed err :
    CandidateOutcome w t gitRepo branch headCommit c h
      [EvLoadFromYAML (configPath w gitRepo c);
       EvLog Error_ "failed to load application config file" [zap_Error err]]
| OutDetermineFailed err :
    CandidateOutcome w t gitRepo branch headCommit c h
      [EvLoadFromYAML (configPath w gitRepo c);
       EvShouldTrigger (kind c) (application c);
       EvNotify (triggerFailed (application c)
                   (determineFailedMsg (application c) err) headCommit);
       EvLog Error_ (determineFailedMsg (application c) err) [zap_Error err]]
| OutSkipped :
    CandidateOutcome w t gitRepo branch headCommit c h
      [EvLoadFromYAML (configPath w gitRepo c);
       EvShouldTrigger (kind c) (application c);
       EvCommitStorePut (App_Id (application c)) (Hash headCommit)]
| OutCreateFailed err :
    CandidateOutcome w t gitRepo branch headCommit c h
      [EvLoadFromYAML (configPath w gitRepo c);
       EvShouldTrigger (kind c) (application c);
       EvCreateDeployment (requested c branch headCommit);
       EvNotify (triggerFailed (application c)
                   (triggerFailedMsg (application c) err) headCommit);
       EvLog Error_ (triggerFailedMsg (application c) err) [zap_Error err]]
| OutTriggered appCfg id :
    CandidateOutcome w t gitRepo branch headCommit c h
      ([EvLoadFromYAML (configPath w gitRepo c);
        EvShouldTrigger (kind c) (application c);
        EvCreateDeployment (requested c branch headCommit)]
       ++ triggeredEvents w t c appCfg headCommit
            (withId (requested c branch headCommit) id)
            (h ++ [EvLoadFromYAML (configPath w gitRepo c);
                   EvShouldTrigger (kind c) (application c);
                   EvCreateDeployment (requested c branch headCommit)])).

(** Nothing happens without what it follows from: a report needs a created
    deployment, a deployment or a write to the commit store or a
    notification needs an answer of the determiner, and the determiner is
    asked only for a configuration that was read. *)
Definition causal (evs : list Event) : Prop :=
  length (reports evs) ≤ length (createdDeployments evs)
  ∧ length (createdDeployments evs) ≤ length (evaluations evs)
  ∧ length (puts evs) ≤ length (evaluations evs)
  ∧ length (notifications evs) ≤ length (evaluations evs)
  ∧ length (evaluations evs) ≤ length (loads evs).

(** What an event tells of the commit and branch it was made for. *)
Definition madeFor (branch : string) (headCommit : Commit) (e : Event) : Prop :=
  match e with
  | EvCommitStorePut _ hash => hash = Hash headCommit
  | EvCreateDeployment d =>
      Trigger_Commit d = headCommit ∧ Trigger_Branch d = branch
  | EvNotify n =>
      match Metadata n with
      | NotificationEventDeploymentTriggered d _ _ =>
          Trigger_Commit d = headCommit ∧ Trigger_Branch d = branch
      | NotificationEventDeploymentTriggerFailed _ hash msg _ =>
          hash = Hash headCommit ∧ msg = Message headCommit
      end
  | _ => True
  end.

(** The warning of [listCommandCandidates] for a command whose application
    the lister does not know. *)
Definition unregisteredWarning (cmd : ReportableCommand)
    (syncCmd : SyncApplication) : Event :=
  EvLog Warn "detected an AppSync command for an unregistered application"
    [zap_String "command" (Command_Id cmd);
     zap_String "app-id" (ApplicationId syncCmd);
     zap_String "commander" (Commander cmd)].


(** The state in which [Run] starts to clone: the start is logged and the
    map of repositories is made anew. *)
Definition runStart (s : State) : State :=
  {| commitStore := commitStore s; gitRepos := ∅;
     trace := trace s ++ [EvLog Info "start running deployment trigger" []] |}.

Definition cloneFailureLog (r : PipedRepository) (err : error)
  : LogLevel * string * list (string * string) :=
  (Error_, "failed to clone git repository " +:+ RepoID r, [zap_Error err]).

(** Events of the start of [Run] only: clones and log entries. *)
Definition startupOnly (evs : list Event) : Prop :=
  Forall (λ e, match e with
               | EvClone _ _ _ _ | EvLog _ _ _ => True
               | _ => False
               end) evs.

Global Instance Select_eq_dec : EqDecision Select.
Proof. solve_decision. Defined.

(** ** More of the small installation *)

Module Ex2.

(** A Git client that cannot clone r2. *)
Definition tNoClone : Trigger :=
  {| t_apiClient := t_apiClient Ex.t0;
     t_gitClient :=
       {| Clone := λ _ id _ _ _,
            if decide (id = "r2") then inr (Errorf "clone failed")
            else inl (Ex.repo ("/repos/" +:+ id)) |};
     t_applicationLister := t_applicationLister Ex.t0;
     t_commandLister := t_commandLister Ex.t0;
     t_environmentLister := t_environmentLister Ex.t0;
     t_config := t_config Ex.t0;
     t_gracePeriod := t_gracePeriod Ex.t0 |}.

(** A context that is cancelled. *)
Definition cancelled : Context := {| ctx_Err := λ _, Some Canceled |}.

(** A command that is not a sync command, and a sync command for an
    application the lister does not know. *)
Definition otherCmd : ReportableCommand :=
  {| Command_Id := "cmd-0"; Commander := "bob"; GetSyncApplication := None |}.

Definition strayCmd : ReportableCommand :=
  {| Command_Id := "cmd-2"; Commander := "carol";
     GetSyncApplication :=
       Some {| ApplicationId := "gone";
               Sync_SyncStrategy := SyncStrategy_AUTO |} |}.

Definition tCmds : Trigger :=
  Ex.trigger (inl "d-42") (inl Ex.dev) [Ex.a1; Ex.a2]
    [otherCmd; strayCmd; Ex.syncCmd].

(** No application is registered. *)
Definition tNoApps : Trigger :=
  Ex.trigger (inl "d-42") (inl Ex.dev) [] [].

End Ex2.

(** What the determiner is asked for a candidate. *)
Definition question (c : candidate) : candidateKind * Application :=
  (kind c, application c).
(** ** Basic facts *)

Lemma addEvents_nil s : addEvents s [] = s.
Proof. destruct s. unfold addEvents. simpl. by rewrite app_nil_r. Qed.

Lemma addEvents_app s l1 l2 :
  addEvents (addEvents s l1) l2 = addEvents s (l1 ++ l2).
Proof. unfold addEvents. simpl. by rewrite app_assoc. Qed.

Lemma newEvents_addEvents s evs : newEvents s (addEvents s evs) = evs.
Proof. unfold newEvents, addEvents. simpl. by rewrite drop_app_length. Qed.

Lemma newEvents_refl s : newEvents s s = [].
Proof. unfold newEvents. by rewrite drop_all. Qed.

Lemma forEach_app {A} (l1 l2 : list A) (body : A → M unit) s :
  forEach (l1 ++ l2) body s = forEach l2 body (forEach l1 body s).2.
Proof.
  revert s. induction l1 as [|x l1 IH]; intros s; simpl; [done|].
  unfold bind. destruct (body x s) as [[] s']. apply IH.
Qed.

Lemma forEach_cons {A} (x : A) (l : list A) (body : A → M unit) s :
  forEach (x :: l) body s = forEach l body (body x s).2.
Proof. simpl. unfold bind. by destruct (body x s) as [[] s']. Qed.

Ltac mrun :=
  unfold logger, commitStore_Put;
  unfold bind, ret, emit, ask, getStore, setStore, getRepos; simpl.

Section facts.
Context (w : World) (t : Trigger).

Lemma loadDeploymentConfiguration_events repoPath app s :
  (loadDeploymentConfiguration w repoPath app s).2
  = addEvents s [EvLoadFromYAML (filepath_Join w repoPath
                   (GetDeploymentConfigFilePath (GitPath app)))].
Proof.
  unfold loadDeploymentConfiguration. mrun.
  destruct (config_LoadFromYAML w _ _) as [cfg|err]; simpl.
  - destruct (config_ToApplicationKind w (Kind cfg)) as [appKind ok].
    destruct (negb ok || _); [done|].
    by destruct (GetGenericDeployment cfg).
  - by destruct (os_IsNotExist err).
Qed.

Lemma callShouldTrigger_eq d k app appCfg s :
  callShouldTrigger d k app appCfg s
  = let r := ShouldTrigger d (trace s ++ [EvShouldTrigger k app])
                           (commitStore s) app appCfg in
    (r.1, {| commitStore := r.2; gitRepos := gitRepos s;
             trace := trace s ++ [EvShouldTrigger k app] |}).
Proof. reflexivity. Qed.

Lemma triggerDeployment_eq app appCfg branch commit commander strategy s :
  triggerDeployment t app appCfg branch commit commander strategy s
  = let d := buildDeployment app branch commit commander strategy in
    (match CreateDeployment (t_apiClient t)
             (trace s ++ [EvCreateDeployment d]) d with
     | inl id => inl (withId d id)
     | inr err => inr err
     end, addEvents s [EvCreateDeployment d]).
Proof.
  unfold triggerDeployment. mrun.
  by destruct (CreateDeployment _ _ _).
Qed.

Lemma commitStore_Put_eq appId hash s :
  commitStore_Put appId hash s
  = (tt, {| commitStore := store_Put appId hash (commitStore s);
            gitRepos := gitRepos s;
            trace := trace s ++ [EvCommitStorePut appId hash] |}).
Proof. reflexivity. Qed.

End facts.

Section candidate_facts.
Context (w : World) (t : Trigger).

Lemma notifyDeploymentTriggered_eq appCfg d s :
  notifyDeploymentTriggered t appCfg d s
  = (tt, addEvents s (notifyEvents t appCfg d (trace s))).
Proof.
  unfold notifyDeploymentTriggered, notifyEvents, addEvents. mrun.
  destruct (environmentLister_Get _ _ _); simpl; [|done].
  by rewrite <- app_assoc.
Qed.

Lemma checkCandidate_load_failed gitRepo branch headCommit ds c s err s1 :
  loadDeploymentConfiguration w (GetPath gitRepo) (application c) s
    = (inr err, s1) →
  checkCandidate w t gitRepo branch headCommit ds c s
  = (tt, addEvents s1
           [EvLog Error_ "failed to load application config file"
                  [zap_Error err]]).
Proof.
  intros H. unfold checkCandidate, bind at 1. rewrite H. reflexivity.
Qed.

Lemma checkCandidate_determine_failed gitRepo branch headCommit ds c s
    appCfg s1 err s2 :
  loadDeploymentConfiguration w (GetPath gitRepo) (application c) s
    = (inl appCfg, s1) →
  callShouldTrigger (determiners_Determiner ds (kind c)) (kind c)
    (application c) appCfg s1 = (inr err, s2) →
  checkCandidate w t gitRepo branch headCommit ds c s
  = (tt, addEvents s2
           [EvNotify (triggerFailed (application c)
                        (determineFailedMsg (application c) err) headCommit);
            EvLog Error_ (determineFailedMsg (application c) err)
                  [zap_Error err]]).
Proof.
  intros H1 H2. unfold checkCandidate, bind at 1. rewrite H1.
  unfold bind at 1. rewrite H2.
  unfold notifyDeploymentTriggerFailed, addEvents. mrun.
  by rewrite <- app_assoc.
Qed.

Lemma checkCandidate_skipped gitRepo branch headCommit ds c s appCfg s1 s2 :
  loadDeploymentConfiguration w (GetPath gitRepo) (application c) s
    = (inl appCfg, s1) →
  callShouldTrigger (determiners_Determiner ds (kind c)) (kind c)
    (application c) appCfg s1 = (inl false, s2) →
  checkCandidate w t gitRepo branch headCommit ds c s
  = (tt, {| commitStore := store_Put (App_Id (application c))
                             (Hash headCommit) (commitStore s2);
            gitRepos := gitRepos s2;
            trace := trace s2 ++ [EvCommitStorePut (App_Id (application c))
                                    (Hash headCommit)] |}).
Proof.
  intros H1 H2. unfold checkCandidate, bind at 1. rewrite H1.
  unfold bind at 1. by rewrite H2.
Qed.

Lemma checkCandidate_create_failed gitRepo branch headCommit ds c s
    appCfg s1 s2 err s3 :
  loadDeploymentConfiguration w (GetPath gitRepo) (application c) s
    = (inl appCfg, s1) →
  callShouldTrigger (determiners_Determiner ds (kind c)) (kind c)
    (application c) appCfg s1 = (inl true, s2) →
  triggerDeployment t (application c) appCfg branch headCommit ""
    SyncStrategy_AUTO s2 = (inr err, s3) →
  checkCandidate w t gitRepo branch headCommit ds c s
  = (tt, addEvents s3
           [EvNotify (triggerFailed (application c)
                        (triggerFailedMsg (application c) err) headCommit);
            EvLog Error_ (triggerFailedMsg (application c) err)
                  [zap_Error err]]).
Proof.
  intros H1 H2 H3. unfold checkCandidate, bind at 1. rewrite H1.
  unfold bind at 1. rewrite H2. unfold bind at 1. rewrite H3.
  unfold notifyDeploymentTriggerFailed, addEvents. mrun.
  by rewrite <- app_assoc.
Qed.

Lemma checkCandidate_triggered gitRepo branch headCommit ds c s
    appCfg s1 s2 d s3 :
  loadDeploymentConfiguration w (GetPath gitRepo) (application c) s
    = (inl appCfg, s1) →
  callShouldTrigger (determiners_Determiner ds (kind c)) (kind c)
    (application c) appCfg s1 = (inl true, s2) →
  triggerDeployment t (application c) appCfg branch headCommit ""
    SyncStrategy_AUTO s2 = (inl d, s3) →
  checkCandidate w t gitRepo branch headCommit ds c s
  = (tt, {| commitStore := store_Put (App_Id (application c))
                             (Hash headCommit) (commitStore s3);
            gitRepos := gitRepos s3;
            trace := trace s3 ++
                     triggeredEvents w t c appCfg headCommit d (trace s3) |}).
Proof.
  intros H1 H2 H3. unfold checkCandidate, bind at 1. rewrite H1.
  unfold bind at 1. rewrite H2. unfold bind at 1. rewrite H3.
  unfold bind at 1. rewrite commitStore_Put_eq.
  unfold bind at 1. rewrite notifyDeploymentTriggered_eq.
  unfold triggeredEvents, reportEvents, notifyEvents, addEvents, callReport,
    reportMetadata.
  destruct (decide (kind c = commandCandidate)) as [Hk|Hk];
    mrun; rewrite <- ?app_assoc; simpl;
    destruct (environmentLister_Get _ _ _); simpl;
    rewrite <- ?app_assoc; simpl;
    try destruct (command_Report w _ _ _ _); simpl;
    rewrite <- ?app_assoc, ?app_nil_r; simpl; done.
Qed.

End candidate_facts.

Section shape.
Context (w : World) (t : Trigger).

Lemma load_state repoPath app s r s1 :
  loadDeploymentConfiguration w repoPath app s = (r, s1) →
  s1 = addEvents s [EvLoadFromYAML (filepath_Join w repoPath
                      (GetDeploymentConfigFilePath (GitPath app)))].
Proof.
  intros H. rewrite <- (loadDeploymentConfiguration_events w repoPath app s).
  by rewrite H.
Qed.

Lemma callShouldTrigger_state d k app appCfg s r s2 :
  callShouldTrigger d k app appCfg s = (r, s2) →
  gitRepos s2 = gitRepos s ∧ trace s2 = trace s ++ [EvShouldTrigger k app].
Proof. rewrite callShouldTrigger_eq. simpl. by intros [= _ <-]. Qed.

Lemma triggerDeployment_state app appCfg branch commit commander strategy
    s r s3 :
  triggerDeployment t app appCfg branch commit commander strategy s = (r, s3) →
  s3 = addEvents s [EvCreateDeployment
                      (buildDeployment app branch commit commander strategy)].
Proof. rewrite triggerDeployment_eq. simpl. by intros [= _ <-]. Qed.

Lemma triggerDeployment_id app appCfg branch commit commander strategy
    s d s3 :
  triggerDeployment t app appCfg branch commit commander strategy s
    = (inl d, s3) →
  ∃ id, d = withId (buildDeployment app branch commit commander strategy) id.
Proof.
  rewrite triggerDeployment_eq. simpl.
  destruct (CreateDeployment _ _ _) as [id|]; [|done].
  intros [= <- _]. by exists id.
Qed.

Lemma notifyEvents_quiet appCfg d h :
  let evs := notifyEvents t appCfg d h in
  loads evs = [] ∧ pulls evs = [] ∧ latestCommitCalls evs = [] ∧
  reports evs = [] ∧ puts evs = [] ∧ createdDeployments evs = [] ∧
  evaluations evs = [].
Proof.
  unfold notifyEvents. by destruct (environmentLister_Get _ _ _).
Qed.

Lemma reportEvents_quiet c d h :
  let evs := reportEvents w c d h in
  loads evs = [] ∧ pulls evs = [] ∧ latestCommitCalls evs = [] ∧
  puts evs = [] ∧ createdDeployments evs = [] ∧ notifications evs = [] ∧
  evaluations evs = [].
Proof.
  unfold reportEvents. destruct (decide _); [|done].
  by destruct (command_Report _ _ _ _ _).
Qed.

Lemma reportEvents_reports c d h :
  reports (reportEvents w c d h)
  = if decide (kind c = commandCandidate)
    then [(command c, COMMAND_SUCCEEDED, reportMetadata d)] else [].
Proof.
  unfold reportEvents. destruct (decide _); [|done].
  by destruct (command_Report _ _ _ _ _).
Qed.

(** Whatever happens to a candidate, the loop body reads its configuration
    first and touches neither Git nor the map of repositories. *)
Lemma checkCandidate_shape gitRepo branch headCommit ds c s :
  ∃ st evs,
    checkCandidate w t gitRepo branch headCommit ds c s
    = (tt, {| commitStore := st; gitRepos := gitRepos s;
              trace := trace s ++ EvLoadFromYAML (configPath w gitRepo c)
                                  :: evs |})
    ∧ loads evs = [] ∧ pulls evs = [] ∧ latestCommitCalls evs = []
    ∧ (kind c ≠ commandCandidate → reports evs = []).
Proof.
  destruct (loadDeploymentConfiguration w (GetPath gitRepo) (application c) s)
    as [[appCfg|err] s1] eqn:H1;
    pose proof (load_state _ _ _ _ _ H1) as ->.
  { destruct (callShouldTrigger (determiners_Determiner ds (kind c)) (kind c)
                (application c) appCfg
                (addEvents s [EvLoadFromYAML (filepath_Join w (GetPath gitRepo)
                   (GetDeploymentConfigFilePath (GitPath (application c))))]))
      as [[[|]|err] s2] eqn:H2;
      destruct (callShouldTrigger_state _ _ _ _ _ _ _ H2) as [Hg Ht];
      simpl in Hg, Ht.
    - destruct (triggerDeployment t (application c) appCfg branch headCommit
                  "" SyncStrategy_AUTO s2) as [[d|err] s3] eqn:H3;
        pose proof (triggerDeployment_state _ _ _ _ _ _ _ _ _ H3) as ->.
      + erewrite checkCandidate_triggered by eassumption.
        eexists _, _. split.
        { simpl. rewrite Hg, Ht. rewrite <- !app_assoc. simpl. reflexivity. }
        unfold triggeredEvents; cbn.
        unfold loads, pulls, latestCommitCalls, reports; cbn.
        rewrite !omap_app.
        match goal with |- context [notifyEvents t appCfg d ?h] =>
          destruct (notifyEvents_quiet appCfg d h)
            as (Hn1 & Hn2 & Hn3 & Hn4 & _) end.
        unfold loads, pulls, latestCommitCalls, reports in Hn1, Hn2, Hn3, Hn4.
        rewrite Hn1, Hn2, Hn3, Hn4. cbn.
        match goal with |- context [reportEvents w c d ?h] =>
          destruct (reportEvents_quiet c d h) as (Hr1 & Hr2 & Hr3 & _);
          pose proof (reportEvents_reports c d h) as Hr4 end.
        unfold loads, pulls, latestCommitCalls, reports in Hr1, Hr2, Hr3, Hr4.
        rewrite Hr1, Hr2, Hr3, Hr4.
        repeat split; try done.
        intros Hk. by rewrite decide_False.
      + erewrite checkCandidate_create_failed by eassumption.
        eexists _, _.
        split; [unfold addEvents; simpl; rewrite ?Hg, ?Ht, <- ?app_assoc; simpl;
               reflexivity | done].
    - erewrite checkCandidate_skipped by eassumption.
      eexists _, _.
      split; [unfold addEvents; simpl; rewrite ?Hg, ?Ht, <- ?app_assoc; simpl;
               reflexivity | done].
    - erewrite checkCandidate_determine_failed by eassumption.
      eexists _, _.
      split; [unfold addEvents; simpl; rewrite ?Hg, ?Ht, <- ?app_assoc; simpl;
               reflexivity | done].
  }
  erewrite checkCandidate_load_failed by eassumption.
  eexists _, _.
  split; [unfold addEvents; simpl; rewrite ?Hg, ?Ht, <- ?app_assoc; simpl;
               reflexivity | done].
Qed.

End shape.

Section group_facts.
Context (w : World) (t : Trigger).

Lemma newEvents_trace s s' evs :
  trace s' = trace s ++ evs → newEvents s s' = evs.
Proof. intros H. unfold newEvents. rewrite H. by rewrite drop_app_length. Qed.

Lemma forEach_shape gitRepo branch headCommit ds cs s :
  ∃ st evs,
    forEach cs (checkCandidate w t gitRepo branch headCommit ds) s
    = (tt, {| commitStore := st; gitRepos := gitRepos s;
              trace := trace s ++ evs |})
    ∧ loads evs = map (configPath w gitRepo) cs
    ∧ pulls evs = [] ∧ latestCommitCalls evs = []
    ∧ (Forall (λ c, kind c ≠ commandCandidate) cs → reports evs = []).
Proof.
  revert s. induction cs as [|c cs IH]; intros s.
  - exists (commitStore s), []. simpl. rewrite app_nil_r.
    by destruct s.
  - rewrite forEach_cons.
    destruct (checkCandidate_shape w t gitRepo branch headCommit ds c s)
      as (st1 & evs1 & -> & Hl1 & Hp1 & Hc1 & Hr1). simpl.
    match goal with |- context [forEach cs _ ?s1] =>
      destruct (IH s1) as (st2 & evs2 & -> & Hl2 & Hp2 & Hc2 & Hr2) end.
    simpl. exists st2, (EvLoadFromYAML (configPath w gitRepo c) :: evs1 ++ evs2).
    split; [by rewrite <- app_assoc|].
    unfold loads, pulls, latestCommitCalls, reports in *. simpl.
    rewrite !omap_app, Hl1, Hl2, Hp1, Hp2, Hc1, Hc2. simpl.
    split_and!; try done.
    intros [Hk Hks]%Forall_cons. by rewrite Hr1, Hr2.
Qed.

Lemma updateRepoToLatest_unregistered repoID s :
  gitRepos s !! repoID = None →
  updateRepoToLatest repoID s = (inr notRegistered, s).
Proof. intros H. unfold updateRepoToLatest. mrun. by rewrite H. Qed.

Lemma updateRepoToLatest_registered repoID repo s :
  gitRepos s !! repoID = Some repo →
  ∃ res evs,
    updateRepoToLatest repoID s
    = (res, addEvents s (EvPull repoID (GetClonedBranch repo) :: evs))
    ∧ (evs = [] ∨ evs = [EvGetLatestCommit repoID])
    ∧ (∀ r b h, res = inl (r, b, h) → r = repo).
Proof.
  intros H. unfold updateRepoToLatest. mrun. rewrite H.
  destruct (Pull repo _ _) as [err|]; simpl.
  - eexists _, []. split; [done|]. split; [by left|done].
  - destruct (GetLatestCommit repo _) as [c|err]; simpl.
    + eexists _, [EvGetLatestCommit repoID]. unfold addEvents. simpl.
      rewrite <- app_assoc. split; [done|]. split; [by right|].
      by intros r b h [= <- _ _].
    + eexists _, [EvGetLatestCommit repoID]. unfold addEvents. simpl.
      rewrite <- app_assoc. split; [done|]. split; [by right|done].
Qed.

Lemma updateRepoToLatest_state repoID s res s' :
  updateRepoToLatest repoID s = (res, s') →
  commitStore s' = commitStore s ∧ gitRepos s' = gitRepos s ∧
  ∃ evs, trace s' = trace s ++ evs
    ∧ pulls evs = (if registered s repoID then [repoID] else [])
    ∧ length (latestCommitCalls evs) ≤ length (pulls evs)
    ∧ loads evs = [] ∧ notifications evs = [] ∧ puts evs = []
    ∧ reports evs = [] ∧ createdDeployments evs = [].
Proof.
  intros H.
  destruct (gitRepos s !! repoID) as [repo|] eqn:Hr.
  - assert (registered s repoID = true) as ->.
    { unfold registered. apply bool_decide_eq_true. rewrite Hr. eauto. }
    destruct (updateRepoToLatest_registered _ _ _ Hr)
      as (res' & evs & Heq & Hevs & _).
    rewrite Heq in H. injection H as <- <-. simpl.
    split; [done|]. split; [done|]. eexists. split; [done|].
    destruct Hevs as [-> | ->]; simpl; split_and!; (done || lia).
  - assert (registered s repoID = false) as ->.
    { unfold registered. apply bool_decide_eq_false. rewrite Hr.
      by intros [? ?]. }
    rewrite (updateRepoToLatest_unregistered _ _ Hr) in H.
    injection H as <- <-. split; [done|]. split; [done|].
    exists []. rewrite app_nil_r. split; [done|].
    simpl. split_and!; (done || lia).
Qed.

Lemma updateFailureLog_quiet ctx repoID err h :
  let evs := updateFailureLog ctx repoID err h in
  pulls evs = [] ∧ latestCommitCalls evs = [] ∧ loads evs = [] ∧
  notifications evs = [] ∧ puts evs = [] ∧ reports evs = [] ∧
  createdDeployments evs = [] ∧ evaluations evs = [].
Proof. unfold updateFailureLog. by destruct (decide _). Qed.

Lemma checkRepoCandidates_update_failed ctx repoID cs s err s1 :
  updateRepoToLatest repoID s = (inr err, s1) →
  checkRepoCandidates w t ctx repoID cs s
  = (Some err, addEvents s1 (updateFailureLog ctx repoID err (trace s1))).
Proof.
  intros H. unfold checkRepoCandidates, bind at 1. rewrite H.
  unfold updateFailureLog. mrun.
  destruct (decide (ctx_Err ctx (trace s1) = Some Canceled)); simpl.
  - by rewrite addEvents_nil.
  - done.
Qed.

Lemma checkRepoCandidates_updated ctx repoID cs s gitRepo branch headCommit s0 :
  updateRepoToLatest repoID s = (inl (gitRepo, branch, headCommit), s0) →
  checkRepoCandidates w t ctx repoID cs s
  = (None, (forEach cs (checkCandidate w t gitRepo branch headCommit
                          (determinersOf w gitRepo headCommit)) s0).2).
Proof.
  intros H. unfold checkRepoCandidates, bind at 1. rewrite H.
  unfold bind, ret, determinersOf.
  by destruct (forEach cs _ s0) as [[] s'].
Qed.

Lemma checkRepoCandidates_result ctx repoID cs s :
  (checkRepoCandidates w t ctx repoID cs s).1
  = match (updateRepoToLatest repoID s).1 with
    | inr err => Some err
    | inl _ => None
    end.
Proof.
  destruct (updateRepoToLatest repoID s) as [[[[r b] h]|err] s1] eqn:H.
  - by erewrite checkRepoCandidates_updated by eassumption.
  - by erewrite checkRepoCandidates_update_failed by eassumption.
Qed.

Lemma checkRepoCandidates_shape ctx repoID cs s :
  ∃ st evs,
    (checkRepoCandidates w t ctx repoID cs s).2
    = {| commitStore := st; gitRepos := gitRepos s; trace := trace s ++ evs |}
    ∧ pulls evs = (if registered s repoID then [repoID] else [])
    ∧ length (latestCommitCalls evs) ≤ length (pulls evs).
Proof.
  destruct (updateRepoToLatest repoID s) as [[[[r b] h]|err] s1] eqn:H;
    destruct (updateRepoToLatest_state _ _ _ _ H)
      as (Hst & Hg & evs & Ht & Hp & Hc & _).
  - erewrite checkRepoCandidates_updated by eassumption. simpl.
    destruct (forEach_shape r b h (determinersOf w r h) cs s1)
      as (st2 & evs2 & -> & _ & Hp2 & Hc2 & _). simpl.
    exists st2, (evs ++ evs2). rewrite Hg, Ht, <- app_assoc.
    split; [done|].
    unfold pulls, latestCommitCalls in *. rewrite !omap_app, Hp2, Hc2, !app_nil_r.
    done.
  - erewrite checkRepoCandidates_update_failed by eassumption. simpl.
    destruct (updateFailureLog_quiet ctx repoID err (trace s1))
      as (Hq1 & Hq2 & _).
    exists (commitStore s1),
      (evs ++ updateFailureLog ctx repoID err (trace s1)).
    unfold addEvents. rewrite Hg. rewrite Ht at 1.
    rewrite <- app_assoc. split; [done|].
    unfold pulls, latestCommitCalls in *.
    rewrite !omap_app, Hq1, Hq2, !app_nil_r. done.
Qed.

Lemma checkGroups_shape ctx groups acc s :
  ∃ st evs,
    (checkGroups w t ctx groups acc s).2
    = {| commitStore := st; gitRepos := gitRepos s; trace := trace s ++ evs |}
    ∧ pulls evs = filter (λ r, registered s r) groups.*1
    ∧ length (latestCommitCalls evs) ≤ length (pulls evs).
Proof.
  revert acc s. induction groups as [|[repoID cs] rest IH]; intros acc s.
  - exists (commitStore s), []. simpl. rewrite app_nil_r. split; [by destruct s|].
    split; [done|simpl; lia].
  - simpl. unfold bind at 1.
    destruct (checkRepoCandidates_shape ctx repoID cs s)
      as (st1 & evs1 & Hs1 & Hp1 & Hc1).
    destruct (checkRepoCandidates w t ctx repoID cs s) as [e s1].
    simpl in Hs1. subst s1.
    assert (∀ acc' extra, pulls extra = [] → latestCommitCalls extra = [] →
      ∃ st evs,
        (checkGroups w t ctx rest acc'
           {| commitStore := st1; gitRepos := gitRepos s;
              trace := (trace s ++ evs1) ++ extra |}).2
        = {| commitStore := st; gitRepos := gitRepos s;
             trace := trace s ++ evs |}
        ∧ pulls evs = filter (λ r, registered s r) ((repoID, cs) :: rest).*1
        ∧ length (latestCommitCalls evs) ≤ length (pulls evs)) as Hrest.
    { intros acc' extra Hx1 Hx2.
      destruct (IH acc' {| commitStore := st1; gitRepos := gitRepos s;
                           trace := (trace s ++ evs1) ++ extra |})
        as (st2 & evs2 & -> & Hp2 & Hc2). simpl.
      exists st2, (evs1 ++ extra ++ evs2). rewrite <- !app_assoc.
      split; [done|].
      change (filter (λ r, registered {| commitStore := st1;
                 gitRepos := gitRepos s;
                 trace := (trace s ++ evs1) ++ extra |} r) rest.*1)
        with (filter (λ r, registered s r) rest.*1) in Hp2.
      unfold pulls, latestCommitCalls in *.
      rewrite !omap_app, Hx1, Hx2, Hp1, Hp2. simpl.
      rewrite Hp1 in Hc1. rewrite Hp2 in Hc2.
      rewrite filter_cons. rewrite !length_app in *.
      destruct (registered s repoID) eqn:Hreg.
      - rewrite decide_True by (simpl; tauto).
        simpl in *. split; [done|lia].
      - rewrite decide_False by (simpl; tauto).
        simpl in *. split; [done|lia]. }
    destruct e as [e'|].
    + unfold bind, logger, emit. simpl. apply (Hrest _ [_]); done.
    + specialize (Hrest acc [] eq_refl eq_refl).
      by rewrite app_nil_r in Hrest.
Qed.

End group_facts.

(** ** Grouping *)

Lemma groupByRepo_foldl (m : gmap string (list candidate)) cs r :
  foldl (λ csm c,
           let repoId := Repo_Id (GitPath (application c)) in
           match csm !! repoId with
           | None => <[repoId := [c]]> csm
           | Some l => <[repoId := l ++ [c]]> csm
           end) m cs !! r
  = match filter (λ c, repoOf c = r) cs with
    | [] => m !! r
    | l => Some (default [] (m !! r) ++ l)
    end.
Proof.
  revert m. induction cs as [|c cs IH]; intros m; [done|].
  simpl. rewrite IH. rewrite filter_cons. unfold repoOf.
  set (k := Repo_Id (GitPath (application c))).
  destruct (decide (k = r)) as [Heq|Hne].
  - destruct (m !! k) eqn:Hm; rewrite <- Heq, lookup_insert_eq, ?Hm; simpl;
      match goal with |- context [filter ?P cs] => destruct (filter P cs) end;
      try done; by rewrite <- app_assoc.
  - by destruct (m !! k) eqn:Hm; rewrite lookup_insert_ne.
Qed.

(** Each group holds the candidates of its repository, in input order. *)
Lemma groupByRepo_lookup cs r :
  groupByRepo cs !! r
  = match filter (λ c, repoOf c = r) cs with
    | [] => None
    | l => Some l
    end.
Proof.
  unfold groupByRepo. rewrite groupByRepo_foldl. rewrite lookup_empty.
  by destruct (filter _ cs).
Qed.

Lemma groupByRepo_dom cs :
  dom (groupByRepo cs) = list_to_set (repoOf <$> cs).
Proof.
  apply set_eq. intros r. rewrite elem_of_dom, groupByRepo_lookup.
  rewrite elem_of_list_to_set, list_elem_of_fmap.
  destruct (filter (λ c, repoOf c = r) cs) as [|c l] eqn:Hf.
  - split; [by intros [? ?]|]. intros (c & -> & Hc).
    assert (c ∈ filter (λ c', repoOf c' = repoOf c) cs) as Hin
      by (by apply list_elem_of_filter).
    rewrite Hf in Hin. by apply not_elem_of_nil in Hin.
  - split; [|eauto]. intros _.
    assert (c ∈ filter (λ c', repoOf c' = r) cs) as Hin
      by (rewrite Hf; left).
    apply list_elem_of_filter in Hin as [Hr Hin]. eauto.
Qed.

Lemma range_keys (rg : MapRange) (m : gmap string (list candidate)) :
  (range rg m).*1 ≡ₚ (map_to_list m).*1.
Proof. by rewrite (range_perm rg m). Qed.

(** * The properties *)

(** ** Configuration that fails to load *)

Lemma loadDeploymentConfiguration_failure w repoPath app s err :
  ConfigLoadFailure w app
    (config_LoadFromYAML w
       (trace s ++ [EvLoadFromYAML (filepath_Join w repoPath
                      (GetDeploymentConfigFilePath (GitPath app)))])
       (filepath_Join w repoPath (GetDeploymentConfigFilePath (GitPath app))))
    err →
  (loadDeploymentConfiguration w repoPath app s).1 = inr err.
Proof.
  unfold loadDeploymentConfiguration. mrun.
  inversion 1 as [p Hr|msg Hr|cfg Hk Hr|cfg Hk Hg Hr]; simpl.
  - done.
  - done.
  - destruct (config_ToApplicationKind w (Kind cfg)) as [appKind ok].
    simpl in *. destruct Hk as [-> | Hk]; [done|].
    rewrite bool_decide_false by done. simpl. by rewrite orb_true_r.
  - rewrite Hk. simpl. rewrite bool_decide_true by done. simpl.
    by rewrite Hg.
Qed.

(** C3.  A candidate whose deployment configuration fails to load (the
    file is missing, it cannot be read or parsed, the declared kind is not
    the kind of the application, or the kind has no generic deployment) is
    only logged: the loop body adds the read of the file and one log
    entry, so there is no notification, no deployment, no write to the
    commit store, whose content stays as it was, and the loop goes on with
    the next candidate.  The outcome is the same whatever the cause, up to
    the error that is logged. *)
Theorem config_load_failure_is_silent
    w t gitRepo branch headCommit ds c rest s err :
  ConfigLoadFailure w (application c)
    (config_LoadFromYAML w
       (trace s ++ [EvLoadFromYAML (configPath w gitRepo c)])
       (configPath w gitRepo c)) err →
  let body := checkCandidate w t gitRepo branch headCommit ds in
  let s' := addEvents s
              [EvLoadFromYAML (configPath w gitRepo c);
               EvLog Error_ "failed to load application config file"
                     [zap_Error err]] in
  body c s = (tt, s')
  ∧ notifications (newEvents s s') = []
  ∧ createdDeployments (newEvents s s') = []
  ∧ puts (newEvents s s') = []
  ∧ commitStore s' = commitStore s
  ∧ forEach (c :: rest) body s = forEach rest body s'.
Proof.
  intros Hfail body s'.
  assert (body c s = (tt, s')) as Hbody.
  { apply loadDeploymentConfiguration_failure in Hfail.
    destruct (loadDeploymentConfiguration w (GetPath gitRepo)
                (application c) s) as [r s1] eqn:Hload.
    simpl in Hfail. subst r.
    pose proof (load_state _ _ _ _ _ _ Hload) as ->.
    unfold body. erewrite checkCandidate_load_failed by eassumption.
    by rewrite addEvents_app. }
  split; [done|].
  unfold s'. rewrite newEvents_addEvents.
  split_and!; try done.
  rewrite forEach_cons. by rewrite Hbody.
Qed.

Lemma config_load_failure_is_silent_witness :
  checkCandidate Ex.w0 Ex.t0 (Ex.repo "/repos/r1") "master" Ex.head
    (determinersOf Ex.w0 (Ex.repo "/repos/r1") Ex.head)
    (commitCandidateOf Ex.a3) Ex.s0
  = (tt, addEvents Ex.s0
      [EvLoadFromYAML "/repos/r1/a3/.pipe.yaml";
       EvLog Error_ "failed to load application config file"
         [("error",
           "application config file a3/.pipe.yaml was not found in Git")]]).
Proof.
  apply (config_load_failure_is_silent Ex.w0 Ex.t0 (Ex.repo "/repos/r1")
           "master" Ex.head
           (determinersOf Ex.w0 (Ex.repo "/repos/r1") Ex.head)
           (commitCandidateOf Ex.a3) [] Ex.s0
           (Errorf "application config file a3/.pipe.yaml was not found in Git")).
  apply (ConfigFileMissing Ex.w0 Ex.a3 "/repos/r1/a3/.pipe.yaml").
Defined.

(** ** The commit watermark *)

Lemma newEvents_app s s' pre evs :
  trace s' = (trace s ++ pre) ++ evs → newEvents s s' = pre ++ evs.
Proof. intros H. apply newEvents_trace. by rewrite H, <- app_assoc. Qed.

Lemma store_entry_Put appId hash st :
  store_entry appId (store_Put appId hash st) = Some hash.
Proof.
  unfold store_entry, store_Put, cache_Put. simpl.
  unfold defaultLastTriggeredCommitCacheSize.
  cbn [take cache_Peek]. by rewrite decide_True.
Qed.

Lemma triggeredEvents_puts w t c appCfg headCommit d h :
  puts (triggeredEvents w t c appCfg headCommit d h)
  = [(App_Id (application c), Hash headCommit)].
Proof.
  unfold triggeredEvents. cbn. unfold puts. cbn. rewrite omap_app.
  match goal with |- context [notifyEvents t appCfg d ?h'] =>
    destruct (notifyEvents_quiet t appCfg d h') as (_&_&_&_&Hn&_) end.
  match goal with |- context [reportEvents w c d ?h'] =>
    destruct (reportEvents_quiet w c d h') as (_&_&_&Hr&_) end.
  unfold puts in Hn, Hr. by rewrite Hn, Hr.
Qed.

(** C1, as the code has it.  A commit candidate whose configuration loads
    and whose determiner answers without error leaves the head commit in
    the commit store under its application, with exactly one [Put], when
    the determiner answers false, and when it answers true provided that
    the deployment is created. *)
Theorem watermark_advances_on_evaluation
    w t gitRepo branch headCommit ds c s appCfg s1 b s2 :
  kind c = commitCandidate →
  loadDeploymentConfiguration w (GetPath gitRepo) (application c) s
    = (inl appCfg, s1) →
  callShouldTrigger (determiners_Determiner ds (kind c)) (kind c)
    (application c) appCfg s1 = (inl b, s2) →
  (b = true → ∃ d s3,
     triggerDeployment t (application c) appCfg branch headCommit ""
       SyncStrategy_AUTO s2 = (inl d, s3)) →
  let s' := (checkCandidate w t gitRepo branch headCommit ds c s).2 in
  store_entry (App_Id (application c)) (commitStore s') = Some (Hash headCommit)
  ∧ puts (newEvents s s') = [(App_Id (application c), Hash headCommit)].
Proof.
  intros Hk H1 H2 Hcreate s'.
  pose proof (load_state _ _ _ _ _ _ H1) as Hs1.
  destruct (callShouldTrigger_state _ _ _ _ _ _ _ H2) as [_ Ht2].
  rewrite Hs1 in Ht2. cbn [trace addEvents] in Ht2.
  rewrite <- app_assoc in Ht2. cbn [app] in Ht2.
  destruct b.
  - destruct (Hcreate eq_refl) as (d & s3 & H3).
    pose proof (triggerDeployment_state _ _ _ _ _ _ _ _ _ _ H3) as Hs3.
    unfold s'. erewrite checkCandidate_triggered by eassumption.
    cbn [snd commitStore].
    split; [apply store_entry_Put|].
    erewrite newEvents_app; last first.
    { cbn [trace]. rewrite Hs3 at 1. cbn [trace addEvents]. rewrite Ht2.
      rewrite <- app_assoc. cbn [app]. reflexivity. }
    unfold puts. rewrite omap_app. cbn [omap app].
    apply triggeredEvents_puts.
  - unfold s'. erewrite checkCandidate_skipped by eassumption.
    cbn [snd commitStore].
    split; [apply store_entry_Put|].
    erewrite newEvents_trace; last first.
    { cbn [trace]. rewrite Ht2. rewrite <- app_assoc. cbn [app].
      reflexivity. }
    done.
Qed.

Lemma watermark_advances_on_evaluation_witness :
  let s' := (checkCandidate Ex.w0 Ex.t0 (Ex.repo "/repos/r1") "master" Ex.head
               (determinersOf Ex.w0 (Ex.repo "/repos/r1") Ex.head)
               (commitCandidateOf Ex.a1) Ex.s0).2 in
  store_entry "a1" (commitStore s') = Some "H1"
  ∧ puts (newEvents Ex.s0 s') = [("a1", "H1")].
Proof.
  eapply (watermark_advances_on_evaluation Ex.w0 Ex.t0 (Ex.repo "/repos/r1")
            "master" Ex.head
            (determinersOf Ex.w0 (Ex.repo "/repos/r1") Ex.head)
            (commitCandidateOf Ex.a1) Ex.s0).
  - reflexivity.
  - vm_compute. reflexivity.
  - vm_compute. reflexivity.
  - intros _. eexists _, _. vm_compute. reflexivity.
Defined.

(** C1 as stated fails: with the configuration loaded and the determiner
    answering true without error, the commit store is left without the
    head commit when the control plane refuses the deployment. *)
Lemma watermark_not_advanced_when_creation_fails :
  let body := checkCandidate Ex.w0 Ex.tRefused (Ex.repo "/repos/r1") "master"
                Ex.head (determinersOf Ex.w0 (Ex.repo "/repos/r1") Ex.head) in
  let c := commitCandidateOf Ex.a1 in
  kind c = commitCandidate
  ∧ (∃ appCfg,
       (loadDeploymentConfiguration Ex.w0 "/repos/r1" Ex.a1 Ex.s0).1
         = inl appCfg
       ∧ (callShouldTrigger (Ex.onCommitByHash "H1") commitCandidate Ex.a1
            appCfg
            (loadDeploymentConfiguration Ex.w0 "/repos/r1" Ex.a1 Ex.s0).2).1
         = inl true)
  ∧ store_entry (App_Id (application c)) (commitStore (body c Ex.s0).2)
    ≠ Some (Hash Ex.head)
  ∧ puts (newEvents Ex.s0 (body c Ex.s0).2) = [].
Proof.
  split; [reflexivity|]. split.
  - eexists. split; vm_compute; reflexivity.
  - split; [|vm_compute; reflexivity].
    vm_compute. discriminate.
Qed.

(** ** A deployment that is created *)

Lemma evaluated_trace w gitRepo d k c s appCfg s1 r s2 :
  loadDeploymentConfiguration w (GetPath gitRepo) (application c) s
    = (inl appCfg, s1) →
  callShouldTrigger d k (application c) appCfg s1 = (r, s2) →
  trace s2 = trace s ++ [EvLoadFromYAML (configPath w gitRepo c);
                         EvShouldTrigger k (application c)].
Proof.
  intros H1 H2.
  pose proof (load_state _ _ _ _ _ _ H1) as Hs1.
  destruct (callShouldTrigger_state _ _ _ _ _ _ _ H2) as [_ Ht2].
  rewrite Hs1 in Ht2. cbn [trace addEvents] in Ht2.
  by rewrite <- app_assoc in Ht2.
Qed.

(** C5.  For a command candidate whose deployment [d] is created, the loop
    body ends with exactly one report of the command, with status
    COMMAND_SUCCEEDED and the id of [d] under TriggeredDeploymentID; when
    the report fails, one more log entry is all that differs: the
    deployment was created, the commit store holds the head commit and the
    loop goes on with the next candidate.  A candidate that is not a command
    candidate never reports a command. *)
Theorem command_reported_once
    w t gitRepo branch headCommit ds c rest s appCfg s1 s2 d s3 :
  kind c = commandCandidate →
  loadDeploymentConfiguration w (GetPath gitRepo) (application c) s
    = (inl appCfg, s1) →
  callShouldTrigger (determiners_Determiner ds (kind c)) (kind c)
    (application c) appCfg s1 = (inl true, s2) →
  triggerDeployment t (application c) appCfg branch headCommit ""
    SyncStrategy_AUTO s2 = (inl d, s3) →
  let body := checkCandidate w t gitRepo branch headCommit ds in
  let s' := (body c s).2 in
  let put := EvCommitStorePut (App_Id (application c)) (Hash headCommit) in
  let ns := notifyEvents t appCfg d (trace s3 ++ [put]) in
  let metadata : gmap string string :=
    {[ triggeredDeploymentIDKey := Deployment_Id d ]} in
  let report := EvReport (command c) COMMAND_SUCCEEDED metadata in
  reports (newEvents s s') = [(command c, COMMAND_SUCCEEDED, metadata)]
  ∧ trace s' = trace s3 ++ put :: ns ++ report ::
      match command_Report w (trace s3 ++ put :: ns ++ [report])
              (command c) COMMAND_SUCCEEDED metadata with
      | Some err =>
          [EvLog Error_ "failed to report command status" [zap_Error err]]
      | None => []
      end
  ∧ createdDeployments (newEvents s s')
    = [buildDeployment (application c) branch headCommit "" SyncStrategy_AUTO]
  ∧ commitStore s'
    = store_Put (App_Id (application c)) (Hash headCommit) (commitStore s3)
  ∧ store_entry (App_Id (application c)) (commitStore s')
    = Some (Hash headCommit)
  ∧ forEach (c :: rest) body s = forEach rest body s'
  ∧ ∀ c' s'', kind c' ≠ commandCandidate →
      reports (newEvents s'' (body c' s'').2) = [].
Proof.
  intros Hk H1 H2 H3 body s' put ns metadata report.
  pose proof (evaluated_trace _ _ _ _ _ _ _ _ _ _ H1 H2) as Ht2.
  pose proof (triggerDeployment_state _ _ _ _ _ _ _ _ _ _ H3) as Hs3.
  assert (trace s3 = trace s ++
            [EvLoadFromYAML (configPath w gitRepo c);
             EvShouldTrigger (kind c) (application c);
             EvCreateDeployment (buildDeployment (application c) branch
                                   headCommit "" SyncStrategy_AUTO)]) as Ht3.
  { rewrite Hs3. cbn [trace addEvents]. rewrite Ht2.
    by rewrite <- app_assoc. }
  assert (body c s
          = (tt, {| commitStore := store_Put (App_Id (application c))
                                     (Hash headCommit) (commitStore s3);
                    gitRepos := gitRepos s3;
                    trace := trace s3 ++
                      triggeredEvents w t c appCfg headCommit d (trace s3) |}))
    as Hbody by (by eapply checkCandidate_triggered).
  assert (newEvents s s'
          = [EvLoadFromYAML (configPath w gitRepo c);
             EvShouldTrigger (kind c) (application c);
             EvCreateDeployment (buildDeployment (application c) branch
                                   headCommit "" SyncStrategy_AUTO)]
            ++ triggeredEvents w t c appCfg headCommit d (trace s3)) as Hnew.
  { apply newEvents_app. unfold s'. rewrite Hbody. cbn [snd trace].
    by rewrite Ht3 at 1. }
  split_and!.
  - rewrite Hnew. unfold reports. rewrite omap_app. cbn [omap list_omap app].
    unfold triggeredEvents. cbn [omap list_omap]. rewrite omap_app.
    fold put. fold ns.
    destruct (notifyEvents_quiet t appCfg d (trace s3 ++ [put]))
      as (_&_&_&Hn&_).
    fold ns in Hn. unfold reports in Hn. rewrite Hn. cbn [app].
    pose proof (reportEvents_reports w c d (trace s3 ++ put :: ns)) as Hr.
    unfold reports in Hr. rewrite Hr. by rewrite decide_True.
  - unfold s'. rewrite Hbody. cbn [snd trace].
    unfold triggeredEvents, reportEvents. fold put. fold ns.
    rewrite decide_True by done. unfold reportMetadata. fold metadata.
    fold report. by rewrite <- app_assoc.
  - rewrite Hnew. unfold createdDeployments. rewrite omap_app.
    cbn [omap list_omap app]. unfold triggeredEvents. cbn [omap list_omap]. rewrite omap_app.
    fold put. fold ns.
    destruct (notifyEvents_quiet t appCfg d (trace s3 ++ [put]))
      as (_&_&_&_&_&Hn&_).
    fold ns in Hn. unfold createdDeployments in Hn. rewrite Hn.
    destruct (reportEvents_quiet w c d (trace s3 ++ put :: ns))
      as (_&_&_&_&Hr&_).
    unfold createdDeployments in Hr. by rewrite Hr.
  - unfold s'. by rewrite Hbody.
  - unfold s'. rewrite Hbody. apply store_entry_Put.
  - by rewrite forEach_cons.
  - intros c' s'' Hk'.
    destruct (checkCandidate_shape w t gitRepo branch headCommit ds c' s'')
      as (st & evs & Heq & _ & _ & _ & Hr).
    unfold body. rewrite Heq. cbn [snd].
    erewrite newEvents_trace by (cbn [trace]; reflexivity).
    unfold reports in *. cbn [omap list_omap]. by apply Hr.
Qed.

Lemma command_reported_once_witness :
  let body := checkCandidate Ex.w0 Ex.t0 (Ex.repo "/repos/r1") "master" Ex.head
                (determinersOf Ex.w0 (Ex.repo "/repos/r1") Ex.head) in
  reports (newEvents Ex.s0 (body (Ex.commandOf Ex.a1 Ex.syncCmd) Ex.s0).2)
  = [(Ex.syncCmd, COMMAND_SUCCEEDED, {[ "TriggeredDeploymentID" := "d-42" ]})].
Proof.
  intros body.
  edestruct (command_reported_once Ex.w0 Ex.t0 (Ex.repo "/repos/r1") "master"
               Ex.head (determinersOf Ex.w0 (Ex.repo "/repos/r1") Ex.head)
               (Ex.commandOf Ex.a1 Ex.syncCmd) [] Ex.s0) as [H _].
  - reflexivity.
  - vm_compute. reflexivity.
  - vm_compute. reflexivity.
  - vm_compute. reflexivity.
  - exact H.
Defined.

(** C9.  When a deployment is created and the environment lister fails for
    its environment, the loop body notifies nothing at all; the
    deployment was submitted, the commit store holds the head commit, and a
    command candidate is still reported. *)
Theorem no_notification_without_environment
    w t gitRepo branch headCommit ds c s appCfg s1 s2 d s3 e :
  loadDeploymentConfiguration w (GetPath gitRepo) (application c) s
    = (inl appCfg, s1) →
  callShouldTrigger (determiners_Determiner ds (kind c)) (kind c)
    (application c) appCfg s1 = (inl true, s2) →
  triggerDeployment t (application c) appCfg branch headCommit ""
    SyncStrategy_AUTO s2 = (inl d, s3) →
  environmentLister_Get (t_environmentLister t)
    (trace s3 ++ [EvCommitStorePut (App_Id (application c)) (Hash headCommit);
                  EvEnvironmentGet (Deployment_EnvId d)])
    (Deployment_EnvId d) = inr e →
  let s' := (checkCandidate w t gitRepo branch headCommit ds c s).2 in
  notifications (newEvents s s') = []
  ∧ createdDeployments (newEvents s s')
    = [buildDeployment (application c) branch headCommit "" SyncStrategy_AUTO]
  ∧ puts (newEvents s s') = [(App_Id (application c), Hash headCommit)]
  ∧ store_entry (App_Id (application c)) (commitStore s')
    = Some (Hash headCommit)
  ∧ reports (newEvents s s')
    = if decide (kind c = commandCandidate)
      then [(command c, COMMAND_SUCCEEDED,
             {[ triggeredDeploymentIDKey := Deployment_Id d ]})]
      else [].
Proof.
  intros H1 H2 H3 Henv s'.
  pose proof (evaluated_trace _ _ _ _ _ _ _ _ _ _ H1 H2) as Ht2.
  pose proof (triggerDeployment_state _ _ _ _ _ _ _ _ _ _ H3) as Hs3.
  assert (trace s3 = trace s ++
            [EvLoadFromYAML (configPath w gitRepo c);
             EvShouldTrigger (kind c) (application c);
             EvCreateDeployment (buildDeployment (application c) branch
                                   headCommit "" SyncStrategy_AUTO)]) as Ht3.
  { rewrite Hs3. cbn [trace addEvents]. rewrite Ht2.
    by rewrite <- app_assoc. }
  set (put := EvCommitStorePut (App_Id (application c)) (Hash headCommit)).
  assert (notifyEvents t appCfg d (trace s3 ++ [put])
          = [EvEnvironmentGet (Deployment_EnvId d)]) as Hns.
  { unfold notifyEvents. rewrite <- app_assoc. cbn [app]. unfold put.
    by rewrite Henv. }
  assert (newEvents s s'
          = [EvLoadFromYAML (configPath w gitRepo c);
             EvShouldTrigger (kind c) (application c);
             EvCreateDeployment (buildDeployment (application c) branch
                                   headCommit "" SyncStrategy_AUTO);
             put; EvEnvironmentGet (Deployment_EnvId d)]
            ++ reportEvents w c d
                 (trace s3 ++ [put; EvEnvironmentGet (Deployment_EnvId d)]))
    as Hnew.
  { apply newEvents_app. unfold s'.
    erewrite checkCandidate_triggered by eassumption. cbn [snd trace].
    unfold triggeredEvents. fold put. rewrite Hns.
    rewrite Ht3 at 1. rewrite <- !app_assoc. reflexivity. }
  match type of Hnew with _ = _ ++ reportEvents w c d ?h =>
    destruct (reportEvents_quiet w c d h) as (_&_&_&Hr1&Hr2&Hr3&_);
    pose proof (reportEvents_reports w c d h) as Hr4 end.
  rewrite Hnew.
  unfold notifications, createdDeployments, puts, reports in *.
  rewrite !omap_app, Hr1, Hr2, Hr3, Hr4. cbn [omap list_omap app].
  split_and!; try done.
  unfold s'. erewrite checkCandidate_triggered by eassumption.
  apply store_entry_Put.
Qed.

Lemma no_notification_without_environment_witness :
  let s' := (checkCandidate Ex.w0 Ex.tNoEnv (Ex.repo "/repos/r1") "master"
               Ex.head (determinersOf Ex.w0 (Ex.repo "/repos/r1") Ex.head)
               (Ex.commandOf Ex.a1 Ex.syncCmd) Ex.s0).2 in
  notifications (newEvents Ex.s0 s') = []
  ∧ createdDeployments (newEvents Ex.s0 s')
    = [buildDeployment Ex.a1 "master" Ex.head "" SyncStrategy_AUTO]
  ∧ puts (newEvents Ex.s0 s') = [("a1", "H1")]
  ∧ store_entry "a1" (commitStore s') = Some "H1"
  ∧ reports (newEvents Ex.s0 s')
    = [(Ex.syncCmd, COMMAND_SUCCEEDED, {[ "TriggeredDeploymentID" := "d-42" ]})].
Proof.
  edestruct (no_notification_without_environment Ex.w0 Ex.tNoEnv
               (Ex.repo "/repos/r1") "master" Ex.head
               (determinersOf Ex.w0 (Ex.repo "/repos/r1") Ex.head)
               (Ex.commandOf Ex.a1 Ex.syncCmd) Ex.s0)
    as (Hn & Hd & Hp & Hs & Hr).
  - vm_compute. reflexivity.
  - vm_compute. reflexivity.
  - vm_compute. reflexivity.
  - vm_compute. reflexivity.
  - intros s'. unfold s'.
    split_and!; [exact Hn|exact Hd|exact Hp|exact Hs|exact Hr].
Defined.

(** ** Failures of one candidate *)

Lemma forEach_loads w t gitRepo branch headCommit ds cs s :
  loads (newEvents s
           (forEach cs (checkCandidate w t gitRepo branch headCommit ds) s).2)
  = map (configPath w gitRepo) cs.
Proof.
  destruct (forEach_shape w t gitRepo branch headCommit ds cs s)
    as (st & evs & -> & Hl & _).
  cbn [snd]. by erewrite newEvents_trace by (cbn [trace]; reflexivity).
Qed.

(** C2.  Once the repository of a group is up to date, the group never
    returns an error and the configuration of every candidate of the group
    is read, in order.  A candidate whose determiner fails, or whose
    deployment cannot be created, adds one DEPLOYMENT_TRIGGER_FAILED
    notification for its application and one log entry, writes nothing to
    the commit store, and the candidates after it are all evaluated from
    the state it leaves. *)
Theorem candidate_failure_is_isolated
    w t ctx repoID cs s gitRepo branch headCommit s0 :
  updateRepoToLatest repoID s = (inl (gitRepo, branch, headCommit), s0) →
  let ds := determinersOf w gitRepo headCommit in
  let body := checkCandidate w t gitRepo branch headCommit ds in
  let s' := (checkRepoCandidates w t ctx repoID cs s).2 in
  (checkRepoCandidates w t ctx repoID cs s).1 = None
  ∧ s' = (forEach cs body s0).2
  ∧ loads (newEvents s0 s') = map (configPath w gitRepo) cs
  ∧ ∀ pre c post sf msg err,
      cs = pre ++ c :: post →
      let sc := (forEach pre body s0).2 in
      TriggerFailure w t gitRepo branch headCommit ds c sc sf msg err →
      let failed := triggerFailed (application c) msg headCommit in
      let sc' := addEvents sf [EvNotify failed;
                               EvLog Error_ msg [zap_Error err]] in
      body c sc = (tt, sc')
      ∧ notifications (newEvents sc sc') = [failed]
      ∧ puts (newEvents sc sc') = []
      ∧ commitStore sc' = commitStore sf
      ∧ s' = (forEach post body sc').2
      ∧ loads (newEvents sc' s') = map (configPath w gitRepo) post.
Proof.
  intros Hup ds body s'.
  assert (checkRepoCandidates w t ctx repoID cs s
          = (None, (forEach cs body s0).2)) as Hgroup
    by (by apply checkRepoCandidates_updated).
  assert (s' = (forEach cs body s0).2) as Hs' by (unfold s'; by rewrite Hgroup).
  split; [by rewrite Hgroup|]. split; [done|].
  split; [rewrite Hs'; apply forEach_loads|].
  intros pre c post sf msg err -> sc Hfail failed sc'.
  assert (body c sc = (tt, sc')) as Hbody.
  { destruct Hfail as [appCfg s1 e s2 H1 H2|appCfg s1 s2 e s3 H1 H2 H3].
    - by eapply checkCandidate_determine_failed.
    - by eapply checkCandidate_create_failed. }
  assert (s' = (forEach post body sc').2) as Hpost.
  { rewrite Hs', forEach_app, forEach_cons. fold sc. by rewrite Hbody. }
  split; [done|].
  assert (∃ evs, trace sf = trace sc ++ evs ∧ notifications evs = []
                 ∧ puts evs = []) as (evs & Htr & Hn & Hp).
  { destruct Hfail as [appCfg s1 e s2 H1 H2|appCfg s1 s2 e s3 H1 H2 H3].
    - eexists. split; [by eapply evaluated_trace|done].
    - pose proof (evaluated_trace _ _ _ _ _ _ _ _ _ _ H1 H2) as Ht2.
      pose proof (triggerDeployment_state _ _ _ _ _ _ _ _ _ _ H3) as Hs3.
      eexists. split; [|split].
      + rewrite Hs3. cbn [trace addEvents]. rewrite Ht2.
        rewrite <- app_assoc. reflexivity.
      + done.
      + done. }
  assert (newEvents sc sc'
          = evs ++ [EvNotify failed; EvLog Error_ msg [zap_Error err]])
    as Hnew.
  { apply newEvents_app. unfold sc'. cbn [trace addEvents]. by rewrite Htr. }
  rewrite Hnew. unfold notifications, puts in *.
  rewrite !omap_app, Hn, Hp.
  split_and!; try done.
  rewrite Hpost. apply forEach_loads.
Qed.

Lemma candidate_failure_is_isolated_witness :
  let s' := (checkRepoCandidates Ex.w0 Ex.tRefused Ex.ctx "r1"
               [commitCandidateOf Ex.a1; outOfSyncCandidateOf Ex.a1] Ex.s0).2 in
  (checkRepoCandidates Ex.w0 Ex.tRefused Ex.ctx "r1"
     [commitCandidateOf Ex.a1; outOfSyncCandidateOf Ex.a1] Ex.s0).1 = None
  ∧ loads (trace s') = ["/repos/r1/a1/.pipe.yaml"; "/repos/r1/a1/.pipe.yaml"]
  ∧ length (notifications (trace s')) = 2.
Proof.
  edestruct (candidate_failure_is_isolated Ex.w0 Ex.tRefused Ex.ctx "r1"
               [commitCandidateOf Ex.a1; outOfSyncCandidateOf Ex.a1] Ex.s0)
    as (Hnone & _ & _ & Hfail).
  - vm_compute. reflexivity.
  - edestruct (Hfail [] (commitCandidateOf Ex.a1) [outOfSyncCandidateOf Ex.a1])
      as (Hbody & _).
    + reflexivity.
    + eapply CreateDeploymentFailure; vm_compute; reflexivity.
    + intros s'. split; [exact Hnone|]. vm_compute. done.
Defined.

(** ** Failures of a whole group *)

Lemma checkGroups_cons w t ctx repoID cs rest acc s :
  checkGroups w t ctx ((repoID, cs) :: rest) acc s
  = let (e, s') := checkRepoCandidates w t ctx repoID cs s in
    match e with
    | Some e' =>
        checkGroups w t ctx rest (Some e')
          (addEvents s' [groupFailureLog repoID e'])
    | None => checkGroups w t ctx rest acc s'
    end.
Proof.
  simpl. unfold bind at 1.
  destruct (checkRepoCandidates w t ctx repoID cs s) as [[e'|] s']; done.
Qed.

Lemma lastError_cons r rs :
  lastError (r :: rs)
  = match lastError rs with
    | Some e => Some e
    | None => r
    end.
Proof.
  unfold lastError. destruct r as [e|]; simpl.
  - change (list_omap (option error) error id rs) with (omap id rs).
    destruct (omap id rs) as [|x l]; [done|].
    rewrite last_cons. by destruct (last (x :: l)).
  - change (list_omap (option error) error id rs) with (omap id rs).
    by destruct (last (omap id rs)).
Qed.

Lemma checkGroups_result w t ctx groups acc s :
  (checkGroups w t ctx groups acc s).1
  = match lastError (groupResults w t ctx groups s) with
    | Some e => Some e
    | None => acc
    end.
Proof.
  revert acc s. induction groups as [|[repoID cs] rest IH]; intros acc s.
  - done.
  - rewrite checkGroups_cons. cbn [groupResults].
    destruct (checkRepoCandidates w t ctx repoID cs s) as [[e'|] s'];
      rewrite IH, lastError_cons; by destruct (lastError _).
Qed.

(** C7.  When the update of a repository fails, [checkRepoCandidates]
    returns that error having done nothing for the candidates of the group
    (no configuration read, no determiner asked, no notification, no
    deployment, no write to the commit store); [checkCandidates] keeps the
    error and goes on with the remaining groups; what it returns in the end
    is the last error a group returned, and a group returns an error only
    when the update of its repository failed. *)
Theorem repository_update_failure_skips_group
    w t ctx repoID cs rest acc s err s1 :
  updateRepoToLatest repoID s = (inr err, s1) →
  let sg := addEvents s1 (updateFailureLog ctx repoID err (trace s1)) in
  let evs := newEvents s sg in
  checkRepoCandidates w t ctx repoID cs s = (Some err, sg)
  ∧ loads evs = [] ∧ evaluations evs = [] ∧ notifications evs = []
  ∧ createdDeployments evs = [] ∧ puts evs = [] ∧ reports evs = []
  ∧ commitStore sg = commitStore s
  ∧ checkGroups w t ctx ((repoID, cs) :: rest) acc s
    = checkGroups w t ctx rest (Some err)
        (addEvents sg [groupFailureLog repoID err])
  ∧ (∀ rg batch s0,
       (checkCandidates w t rg ctx batch s0).1
       = lastError (groupResults w t ctx (range rg (groupByRepo batch)) s0))
  ∧ (∀ r cs0 s0,
       (checkRepoCandidates w t ctx r cs0 s0).1
       = match (updateRepoToLatest r s0).1 with
         | inr e => Some e
         | inl _ => None
         end).
Proof.
  intros Hup sg evs.
  assert (checkRepoCandidates w t ctx repoID cs s = (Some err, sg)) as Hgroup
    by (by apply checkRepoCandidates_update_failed).
  destruct (updateRepoToLatest_state _ _ _ _ Hup)
    as (Hst & Hg & uevs & Htr & Hp & Hc & Hl & Hn & Hpu & Hr & Hcd).
  destruct (updateFailureLog_quiet ctx repoID err (trace s1))
    as (_ & _ & Hl2 & Hn2 & Hpu2 & Hr2 & Hcd2 & He2).
  assert (evaluations uevs = []) as He.
  { unfold updateRepoToLatest in Hup. revert Hup. mrun.
    destruct (gitRepos s !! repoID) as [repo|]; simpl.
    - destruct (Pull repo _ _); simpl.
      + intros [= _ <-]. simpl in Htr.
        apply app_inv_head in Htr. by subst uevs.
      + destruct (GetLatestCommit repo _); simpl; [done|].
        intros [= _ <-]. simpl in Htr. rewrite <- app_assoc in Htr.
        apply app_inv_head in Htr. by subst uevs.
    - intros [= _ <-]. rewrite <- (app_nil_r (trace s)) in Htr at 1.
      apply app_inv_head in Htr. by subst uevs. }
  assert (evs = uevs ++ updateFailureLog ctx repoID err (trace s1)) as ->.
  { unfold evs. apply newEvents_trace. unfold sg. cbn [trace addEvents].
    rewrite Htr at 1. by rewrite <- app_assoc. }
  unfold loads, evaluations, notifications, createdDeployments, puts,
    reports in *.
  rewrite !omap_app, Hl, Hl2, He, He2, Hn, Hn2, Hcd, Hcd2, Hpu, Hpu2, Hr, Hr2.
  split_and!; try done.
  - by rewrite checkGroups_cons, Hgroup.
  - intros rg batch s0. unfold checkCandidates. rewrite checkGroups_result.
    by destruct (lastError _).
  - intros r cs0 s0. apply checkRepoCandidates_result.
Qed.

Lemma repository_update_failure_skips_group_witness :
  (checkCandidates Ex.w0 Ex.t0 Ex.descending Ex.ctx
     [commitCandidateOf Ex.a1; commitCandidateOf Ex.a2] Ex.sBroken).1
  = Some (Errorf "fetch failed")
  ∧ loads (trace (checkCandidates Ex.w0 Ex.t0 Ex.descending Ex.ctx
       [commitCandidateOf Ex.a1; commitCandidateOf Ex.a2] Ex.sBroken).2)
    = ["/repos/r2/a2/.pipe.yaml"].
Proof.
  edestruct (repository_update_failure_skips_group Ex.w0 Ex.t0 Ex.ctx "r1"
               [commitCandidateOf Ex.a1] [] None
               (checkRepoCandidates Ex.w0 Ex.t0 Ex.ctx "r2"
                  [commitCandidateOf Ex.a2] Ex.sBroken).2)
    as (_ & _ & _ & _ & _ & _ & _ & _ & _ & Hlast & _).
  - vm_compute. reflexivity.
  - split; [|vm_compute; reflexivity].
    rewrite Hlast. vm_compute. reflexivity.
Defined.

(** ** A repository that was not cloned *)

(** C10.  For a group whose repository is not in the map of cloned
    repositories, [updateRepoToLatest] fails with "the repository was not
    registered in Piped configuration" without touching Git;
    [checkRepoCandidates] returns that error having done nothing for the
    candidates, and [checkCandidates] keeps it as the error of the batch
    while it goes on with the remaining groups. *)
Theorem unregistered_repository_fails_group w t ctx repoID cs rest acc s :
  gitRepos s !! repoID = None →
  let sg := addEvents s (updateFailureLog ctx repoID notRegistered (trace s)) in
  let evs := newEvents s sg in
  Error notRegistered
    = "the repository was not registered in Piped configuration"
  ∧ updateRepoToLatest repoID s = (inr notRegistered, s)
  ∧ checkRepoCandidates w t ctx repoID cs s = (Some notRegistered, sg)
  ∧ pulls evs = [] ∧ latestCommitCalls evs = [] ∧ loads evs = []
  ∧ evaluations evs = [] ∧ notifications evs = []
  ∧ createdDeployments evs = [] ∧ puts evs = []
  ∧ commitStore sg = commitStore s
  ∧ checkGroups w t ctx ((repoID, cs) :: rest) acc s
    = checkGroups w t ctx rest (Some notRegistered)
        (addEvents sg [groupFailureLog repoID notRegistered])
  ∧ (checkGroups w t ctx [(repoID, cs)] acc s).1 = Some notRegistered.
Proof.
  intros Hreg sg evs.
  pose proof (updateRepoToLatest_unregistered _ _ Hreg) as Hup.
  assert (checkRepoCandidates w t ctx repoID cs s = (Some notRegistered, sg))
    as Hgroup by (by apply checkRepoCandidates_update_failed).
  destruct (updateFailureLog_quiet ctx repoID notRegistered (trace s))
    as (Hq1 & Hq2 & Hq3 & Hq4 & Hq5 & Hq6 & Hq7 & Hq8).
  unfold evs, sg. rewrite newEvents_addEvents.
  split_and!; try done.
  - by rewrite checkGroups_cons, Hgroup.
  - by rewrite checkGroups_cons, Hgroup.
Qed.

Lemma unregistered_repository_fails_group_witness :
  checkRepoCandidates Ex.w0 Ex.t0 Ex.ctx "r1" [commitCandidateOf Ex.a1]
    Ex.sEmpty
  = (Some notRegistered,
     addEvents Ex.sEmpty
       [EvLog Error_ "failed to update git repository r1 to latest"
          [("error",
            "the repository was not registered in Piped configuration")]]).
Proof.
  edestruct (unregistered_repository_fails_group Ex.w0 Ex.t0 Ex.ctx "r1"
               [commitCandidateOf Ex.a1] [] None Ex.sEmpty)
    as (_ & _ & Hgroup & _).
  - reflexivity.
  - exact Hgroup.
Defined.

(** ** The deployment that is submitted *)

Lemma triggeredEvents_createdDeployments w t c appCfg headCommit d h :
  createdDeployments (triggeredEvents w t c appCfg headCommit d h) = [].
Proof.
  unfold triggeredEvents. cbn. unfold createdDeployments. cbn.
  rewrite omap_app.
  match goal with |- context [notifyEvents t appCfg d ?h'] =>
    destruct (notifyEvents_quiet t appCfg d h') as (_&_&_&_&_&Hn&_) end.
  match goal with |- context [reportEvents w c d ?h'] =>
    destruct (reportEvents_quiet w c d h') as (_&_&_&_&Hr&_) end.
  unfold createdDeployments in Hn, Hr. by rewrite Hn, Hr.
Qed.

(** Whatever the candidate, the only deployment the loop body submits is
    built with an empty commander and the AUTO strategy. *)
Lemma checkCandidate_created w t gitRepo branch headCommit ds c s d :
  d ∈ createdDeployments
        (newEvents s (checkCandidate w t gitRepo branch headCommit ds c s).2) →
  d = buildDeployment (application c) branch headCommit "" SyncStrategy_AUTO.
Proof.
  destruct (loadDeploymentConfiguration w (GetPath gitRepo) (application c) s)
    as [[appCfg|err] s1] eqn:H1.
  - destruct (callShouldTrigger (determiners_Determiner ds (kind c)) (kind c)
                (application c) appCfg s1) as [[[|]|err] s2] eqn:H2;
      pose proof (evaluated_trace _ _ _ _ _ _ _ _ _ _ H1 H2) as Ht2.
    + destruct (triggerDeployment t (application c) appCfg branch headCommit
                  "" SyncStrategy_AUTO s2) as [[d'|err] s3] eqn:H3;
        pose proof (triggerDeployment_state _ _ _ _ _ _ _ _ _ _ H3) as Hs3.
      * erewrite checkCandidate_triggered by eassumption. cbn [snd].
        erewrite newEvents_app; last first.
        { cbn [trace]. rewrite Hs3 at 1. cbn [trace addEvents]. rewrite Ht2.
          rewrite <- app_assoc. cbn [app]. reflexivity. }
        unfold createdDeployments. rewrite omap_app. cbn [omap list_omap app].
        pose proof (triggeredEvents_createdDeployments w t c appCfg
                      headCommit d' (trace s3)) as Hte.
        unfold createdDeployments in Hte. rewrite Hte.
        by intros ->%list_elem_of_singleton.
      * erewrite checkCandidate_create_failed by eassumption. cbn [snd].
        erewrite newEvents_trace; last first.
        { rewrite Hs3. cbn [trace addEvents]. rewrite Ht2.
          rewrite <- !app_assoc. cbn [app]. reflexivity. }
        cbn. by intros ->%list_elem_of_singleton.
    + erewrite checkCandidate_skipped by eassumption. cbn [snd].
      erewrite newEvents_trace; last first.
      { cbn [trace]. rewrite Ht2. rewrite <- !app_assoc. reflexivity. }
      cbn. by intros ?%not_elem_of_nil.
    + erewrite checkCandidate_determine_failed by eassumption. cbn [snd].
      erewrite newEvents_trace; last first.
      { cbn [trace addEvents]. rewrite Ht2. rewrite <- !app_assoc.
        reflexivity. }
      cbn. by intros ?%not_elem_of_nil.
  - erewrite checkCandidate_load_failed by eassumption. cbn [snd].
    pose proof (load_state _ _ _ _ _ _ H1) as ->.
    rewrite addEvents_app, newEvents_addEvents.
    cbn. by intros ?%not_elem_of_nil.
Qed.

(** C4, on the code.  The loop body passes the empty commander and the AUTO
    strategy to [triggerDeployment] for every kind of candidate.  A sync
    command issued by alice with the PIPELINE strategy therefore yields a
    deployment that names no commander and carries the AUTO strategy. *)
Theorem command_deployment_without_commander :
  (∀ w t gitRepo branch headCommit ds c s d,
     d ∈ createdDeployments
           (newEvents s
              (checkCandidate w t gitRepo branch headCommit ds c s).2) →
     Trigger_Commander d = "" ∧ Trigger_SyncStrategy d = SyncStrategy_AUTO)
  ∧ (listCommandCandidates Ex.t0 Ex.s0).1 = [Ex.commandOf Ex.a1 Ex.syncCmd]
  ∧ Commander Ex.syncCmd = "alice"
  ∧ Sync_SyncStrategy <$> GetSyncApplication Ex.syncCmd
    = Some SyncStrategy_PIPELINE
  ∧ createdDeployments
      (trace (onOndemandTick Ex.w0 Ex.t0 Ex.ascending Ex.ctx Ex.s0).2)
    = [buildDeployment Ex.a1 "master" Ex.head "" SyncStrategy_AUTO].
Proof.
  split.
  - intros w t gitRepo branch headCommit ds c s d Hd.
    by rewrite (checkCandidate_created _ _ _ _ _ _ _ _ _ Hd).
  - split_and!; vm_compute; reflexivity.
Qed.

(** ** Grouping by repository and Git operations *)

Lemma filter_all {A} (P : A → Prop) `{∀ x, Decision (P x)} (l : list A) :
  (∀ x, x ∈ l → P x) → filter P l = l.
Proof.
  induction l as [|x l IH]; intros Hall; [done|].
  rewrite filter_cons_True by (apply Hall; left).
  f_equal. apply IH. intros y Hy. apply Hall. by right.
Qed.

(** C6, as the code has it.  [checkCandidates] groups the candidates by
    the repository of their application, each group in input order.  With
    R the number of distinct repositories of the batch, the repositories
    that are pulled are those of the R that are in the map of cloned
    repositories, each once and whatever the number of its candidates: at
    most R pulls, exactly R when all of them are cloned; and the head commit
    is asked at most once per pull. *)
Theorem one_pull_per_registered_repository w t rg ctx cs s :
  let csm := groupByRepo cs in
  let repoIDs := (map_to_list csm).*1 in
  let evs := newEvents s (checkCandidates w t rg ctx cs s).2 in
  (∀ r, csm !! r = match filter (λ c, repoOf c = r) cs with
                   | [] => None
                   | l => Some l
                   end)
  ∧ dom csm = list_to_set (repoOf <$> cs)
  ∧ NoDup repoIDs
  ∧ length repoIDs = size csm
  ∧ pulls evs ≡ₚ filter (λ r, registered s r) repoIDs
  ∧ length (pulls evs) ≤ size csm
  ∧ length (latestCommitCalls evs) ≤ length (pulls evs)
  ∧ ((∀ r, r ∈ repoIDs → registered s r) → length (pulls evs) = size csm).
Proof.
  intros csm repoIDs evs.
  assert (length repoIDs = size csm) as Hsize.
  { unfold repoIDs. by rewrite length_fmap, length_map_to_list. }
  destruct (checkGroups_shape w t ctx (range rg csm) None s)
    as (st & evs' & Hs' & Hp & Hc).
  assert (evs = evs') as ->.
  { unfold evs, checkCandidates. fold csm. rewrite Hs'.
    by apply newEvents_trace. }
  assert (pulls evs' ≡ₚ filter (λ r, registered s r) repoIDs) as Hperm.
  { rewrite Hp. unfold repoIDs. by rewrite (range_keys rg csm). }
  split_and!.
  - apply groupByRepo_lookup.
  - apply groupByRepo_dom.
  - apply NoDup_fst_map_to_list.
  - done.
  - done.
  - rewrite Hperm, <- Hsize. apply length_filter.
  - done.
  - intros Hall. rewrite Hperm, <- Hsize. f_equal.
    apply filter_all. intros r Hr. by apply Hall.
Qed.

(** C6 as stated fails: a batch of two repositories of which one was not
    cloned makes one pull, not two. *)
Lemma no_pull_for_unregistered_repository :
  let cs := [commitCandidateOf Ex.a1; commitCandidateOf Ex.a2] in
  size (groupByRepo cs) = 2
  ∧ pulls (newEvents Ex.sOnlyR1
             (checkCandidates Ex.w0 Ex.t0 Ex.ascending Ex.ctx cs
                Ex.sOnlyR1).2) = ["r1"]
  ∧ pulls (newEvents Ex.sOnlyR1
             (checkCandidates Ex.w0 Ex.t0 Ex.descending Ex.ctx cs
                Ex.sOnlyR1).2) = ["r1"].
Proof. split_and!; vm_compute; reflexivity. Qed.

(** ** The sync tick *)

Lemma listCommitCandidates_range_eq lst apps :
  listCommitCandidates_range lst apps = apps ++ (commitCandidateOf <$> lst).
Proof.
  revert apps. induction lst as [|a lst IH]; intros apps; simpl.
  - by rewrite app_nil_r.
  - rewrite IH. by rewrite <- app_assoc.
Qed.

Lemma listOutOfSyncCandidates_range_eq lst apps :
  listOutOfSyncCandidates_range lst apps
  = apps ++ (outOfSyncCandidateOf <$>
             filter (λ a, SyncState_Status a = OUT_OF_SYNC) lst).
Proof.
  revert apps. induction lst as [|a lst IH]; intros apps; simpl.
  - by rewrite app_nil_r.
  - rewrite filter_cons.
    destruct (decide (SyncState_Status a ≠ OUT_OF_SYNC)) as [Hne|Heq].
    + by rewrite decide_False.
    + apply dec_stable in Heq. rewrite decide_True by done.
      rewrite IH. by rewrite <- app_assoc.
Qed.

Lemma outOfSync_no_commit (l : list candidate) :
  Forall (λ c, kind c = outOfSyncCandidate) l →
  forallb (λ k, negb (bool_decide (k = commitCandidate))) (kind <$> l) = true.
Proof.
  induction 1 as [|c l Hc _ IH]; [done|].
  rewrite fmap_cons. cbn [forallb]. by rewrite Hc, IH.
Qed.

Lemma commitsBeforeOutOfSync_outOfSync (l : list candidate) :
  Forall (λ c, kind c = outOfSyncCandidate) l →
  commitsBeforeOutOfSync (kind <$> l) = true.
Proof.
  induction 1 as [|c l Hc Hl IH]; [done|].
  rewrite fmap_cons. cbn [commitsBeforeOutOfSync]. rewrite Hc, IH.
  by rewrite outOfSync_no_commit.
Qed.

Lemma commitsBeforeOutOfSync_app (l1 l2 : list candidate) :
  Forall (λ c, kind c = commitCandidate) l1 →
  Forall (λ c, kind c = outOfSyncCandidate) l2 →
  commitsBeforeOutOfSync (kind <$> (l1 ++ l2)) = true.
Proof.
  intros H1 H2. induction H1 as [|c l1 Hc _ IH].
  - by apply commitsBeforeOutOfSync_outOfSync.
  - cbn [app]. rewrite fmap_cons. cbn [commitsBeforeOutOfSync].
    by rewrite Hc.
Qed.

(** C8, as the code has it.  On a sync tick the batch handed to
    [checkCandidates] is one commit candidate per application of the
    lister, in its order, followed by one out-of-sync candidate per
    application whose status is OUT_OF_SYNC, in its order.  The batch is
    then split by repository: within the group of a repository the commit
    candidates come before the out-of-sync candidates and a group is
    processed in the order of its list; nothing orders the candidates of
    two different groups. *)
Theorem sync_tick_batch_order w t rg ctx s :
  let apps := applicationLister_List (t_applicationLister t) (trace s) in
  let commitCandidates := commitCandidateOf <$> apps in
  let outOfSyncCandidates :=
    outOfSyncCandidateOf <$>
      filter (λ a, SyncState_Status a = OUT_OF_SYNC) apps in
  let candidates := commitCandidates ++ outOfSyncCandidates in
  (listCommitCandidates t s).1 = commitCandidates
  ∧ (listOutOfSyncCandidates t s).1 = outOfSyncCandidates
  ∧ onSyncTick w t rg ctx s
    = checkCandidates w t rg ctx candidates
        (addEvents s
           [EvLog Info
              ("found " +:+ pretty (length candidates)
               +:+ " candidates: " +:+ pretty (length commitCandidates)
               +:+ " commit candidates and "
               +:+ pretty (length outOfSyncCandidates)
               +:+ " out_of_sync candidates") []])
  ∧ (∀ r l, groupByRepo candidates !! r = Some l →
       l = filter (λ c, repoOf c = r) commitCandidates
           ++ filter (λ c, repoOf c = r) outOfSyncCandidates
       ∧ commitsBeforeOutOfSync (kind <$> l) = true)
  ∧ (∀ r l1 l2 s1 gitRepo branch headCommit s0,
       updateRepoToLatest r s1 = (inl (gitRepo, branch, headCommit), s0) →
       let body := checkCandidate w t gitRepo branch headCommit
                     (determinersOf w gitRepo headCommit) in
       (checkRepoCandidates w t ctx r (l1 ++ l2) s1).2
       = (forEach l2 body (forEach l1 body s0).2).2).
Proof.
  intros apps commitCandidates outOfSyncCandidates candidates.
  assert ((listCommitCandidates t s).1 = commitCandidates) as Hc.
  { unfold listCommitCandidates. mrun.
    by rewrite listCommitCandidates_range_eq. }
  assert ((listOutOfSyncCandidates t s).1 = outOfSyncCandidates) as Ho.
  { unfold listOutOfSyncCandidates. mrun.
    by rewrite listOutOfSyncCandidates_range_eq. }
  split_and!; try done.
  - unfold onSyncTick, listCommitCandidates, listOutOfSyncCandidates. mrun.
    by rewrite listCommitCandidates_range_eq,
      listOutOfSyncCandidates_range_eq.
  - intros r l Hl. rewrite groupByRepo_lookup in Hl.
    unfold candidates in Hl. rewrite filter_app in Hl.
    assert (l = filter (λ c, repoOf c = r) commitCandidates
                ++ filter (λ c, repoOf c = r) outOfSyncCandidates) as ->.
    { destruct (filter _ commitCandidates ++ filter _ outOfSyncCandidates);
        [done|]. by injection Hl as <-. }
    split; [done|].
    apply commitsBeforeOutOfSync_app.
    + apply Forall_forall. intros c [_ Hin]%list_elem_of_filter.
      unfold commitCandidates in Hin.
      by apply list_elem_of_fmap in Hin as (a & -> & _).
    + apply Forall_forall. intros c [_ Hin]%list_elem_of_filter.
      unfold outOfSyncCandidates in Hin.
      by apply list_elem_of_fmap in Hin as (a & -> & _).
  - intros r l1 l2 s1 gitRepo branch headCommit s0 Hup body.
    erewrite checkRepoCandidates_updated by eassumption. cbn [snd].
    by rewrite forEach_app.
Qed.

(** C8 as stated fails.  With two out-of-sync applications in two
    repositories, an out-of-sync candidate is evaluated before a commit
    candidate in either order in which the two groups can be visited. *)
Lemma out_of_sync_before_commit_across_repositories :
  let evaluated rg :=
    evaluations (trace (onSyncTick Ex.w0 Ex.t0 rg Ex.ctx Ex.s0).2) in
  evaluated Ex.ascending
  = [(commitCandidate, Ex.a1); (outOfSyncCandidate, Ex.a1);
     (commitCandidate, Ex.a2); (outOfSyncCandidate, Ex.a2)]
  ∧ evaluated Ex.descending
    = [(commitCandidate, Ex.a2); (outOfSyncCandidate, Ex.a2);
       (commitCandidate, Ex.a1); (outOfSyncCandidate, Ex.a1)]
  ∧ commitsBeforeOutOfSync (evaluated Ex.ascending).*1 = false
  ∧ commitsBeforeOutOfSync (evaluated Ex.descending).*1 = false.
Proof. split_and!; vm_compute; reflexivity. Qed.

(** ** The scenarios of the design document, run on the model *)

(** A configuration of another kind is handled like a missing one. *)
Example kind_mismatch_is_logged_only :
  newEvents Ex.s0
    (checkCandidate Ex.w0 Ex.t0 (Ex.repo "/repos/r1") "master" Ex.head
       (determinersOf Ex.w0 (Ex.repo "/repos/r1") Ex.head)
       (commitCandidateOf Ex.bad) Ex.s0).2
  = [EvLoadFromYAML "/repos/r1/bad/.pipe.yaml";
     EvLog Error_ "failed to load application config file"
       [("error",
         "invalid application kind in the deployment config file, got: TERRAFORM, expected: KUBERNETES")]].
Proof. vm_compute. reflexivity. Qed.

(** A determiner that fails is notified and logged. *)
Example determiner_failure_is_notified :
  newEvents Ex.s0
    (checkCandidate Ex.wFailing Ex.t0 (Ex.repo "/repos/r1") "master" Ex.head
       (determinersOf Ex.wFailing (Ex.repo "/repos/r1") Ex.head)
       (commitCandidateOf Ex.a1) Ex.s0).2
  = let msg := "failed while determining whether application a1 should be triggered or not: cannot list changed files" in
    [EvLoadFromYAML "/repos/r1/a1/.pipe.yaml";
     EvShouldTrigger commitCandidate Ex.a1;
     EvNotify (triggerFailed Ex.a1 msg Ex.head);
     EvLog Error_ msg [("error", "cannot list changed files")]].
Proof. vm_compute. reflexivity. Qed.

(** "No change": the head is the recorded commit, nothing is submitted and
    nothing is notified. *)
Example no_change_no_deployment :
  let s := {| commitStore := {| cache := [("a3", "H0"); ("a1", "H1")] |};
              gitRepos := gitRepos Ex.s0; trace := [] |} in
  let s' := (checkCandidates Ex.w0 Ex.t0 Ex.ascending Ex.ctx
               [commitCandidateOf Ex.a1] s).2 in
  createdDeployments (trace s') = [] ∧ notifications (trace s') = []
  ∧ cache (commitStore s') = [("a1", "H1"); ("a3", "H0")].
Proof. split_and!; vm_compute; reflexivity. Qed.

(** "Command": one deployment, one report with its id, the head recorded. *)
Example command_scenario :
  let r := Run Ex.w0 Ex.t0 Ex.ascending Ex.ctx [ondemandTicker_C; ctx_Done]
             Ex.sEmpty in
  r.1 = Some None
  ∧ pulls (trace r.2) = ["r1"]
  ∧ Deployment_ApplicationId <$> createdDeployments (trace r.2) = ["a1"]
  ∧ reports (trace r.2)
    = [(Ex.syncCmd, COMMAND_SUCCEEDED, {[ "TriggeredDeploymentID" := "d-42" ]})]
  ∧ store_entry "a1" (commitStore r.2) = Some "H1"
  ∧ Type_ <$> notifications (trace r.2) = [EVENT_DEPLOYMENT_TRIGGERED].
Proof. split_and!; vm_compute; reflexivity. Qed.

(** A report that fails costs one log entry and nothing else. *)
Example report_failure_is_logged_only :
  let run w := (checkCandidate w Ex.t0 (Ex.repo "/repos/r1") "master" Ex.head
                  (determinersOf w (Ex.repo "/repos/r1") Ex.head)
                  (Ex.commandOf Ex.a1 Ex.syncCmd) Ex.s0).2 in
  run Ex.wNoReport
  = addEvents (run Ex.w0)
      [EvLog Error_ "failed to report command status"
         [("error", "report refused")]].
Proof. vm_compute. reflexivity. Qed.

(** "Repo update fails": the candidates of r1 are skipped, those of r2
    proceed, and the tick returns the error of r1, in either order. *)
Example repo_update_failure_scenario :
  let run rg := checkCandidates Ex.w0 Ex.t0 rg Ex.ctx
                  [commitCandidateOf Ex.a1; commitCandidateOf Ex.a2]
                  Ex.sBroken in
  (run Ex.ascending).1 = Some (Errorf "fetch failed")
  ∧ (run Ex.descending).1 = Some (Errorf "fetch failed")
  ∧ evaluations (trace (run Ex.ascending).2) = [(commitCandidate, Ex.a2)]
  ∧ evaluations (trace (run Ex.descending).2) = [(commitCandidate, Ex.a2)].
Proof. split_and!; vm_compute; reflexivity. Qed.

(** * More of trigger.go *)

(** ** The ways through the loop body *)

Lemma newEvents_trans s s1 s2 a b :
  trace s1 = trace s ++ a → trace s2 = trace s1 ++ b →
  newEvents s s2 = a ++ b.
Proof.
  intros H1 H2. apply newEvents_trace. by rewrite H2, H1, <- app_assoc.
Qed.

Lemma checkCandidate_outcome w t gitRepo branch headCommit ds c s :
  ∃ evs,
    trace (checkCandidate w t gitRepo branch headCommit ds c s).2
    = trace s ++ evs
    ∧ gitRepos (checkCandidate w t gitRepo branch headCommit ds c s).2
      = gitRepos s
    ∧ CandidateOutcome w t gitRepo branch headCommit c (trace s) evs.
Proof.
  destruct (loadDeploymentConfiguration w (GetPath gitRepo) (application c) s)
    as [[appCfg|err] s1] eqn:H1.
  - destruct (callShouldTrigger (determiners_Determiner ds (kind c)) (kind c)
                (application c) appCfg s1) as [[[|]|err] s2] eqn:H2;
      pose proof (evaluated_trace _ _ _ _ _ _ _ _ _ _ H1 H2) as Ht2;
      pose proof (load_state _ _ _ _ _ _ H1) as Hs1;
      destruct (callShouldTrigger_state _ _ _ _ _ _ _ H2) as [Hg2 _];
      rewrite Hs1 in Hg2; cbn [gitRepos addEvents] in Hg2.
    + destruct (triggerDeployment t (application c) appCfg branch headCommit
                  "" SyncStrategy_AUTO s2) as [[d|err] s3] eqn:H3;
        pose proof (triggerDeployment_state _ _ _ _ _ _ _ _ _ _ H3) as Hs3.
      * destruct (triggerDeployment_id _ _ _ _ _ _ _ _ _ _ H3) as [id ->].
        erewrite checkCandidate_triggered by eassumption. cbn [snd trace gitRepos].
        assert (trace s3 = trace s ++
                  [EvLoadFromYAML (configPath w gitRepo c);
                   EvShouldTrigger (kind c) (application c);
                   EvCreateDeployment (requested c branch headCommit)]) as Ht3.
        { rewrite Hs3. cbn [trace addEvents]. rewrite Ht2.
          by rewrite <- app_assoc. }
        eexists. split; [|split].
        -- rewrite Ht3 at 1. rewrite <- app_assoc. reflexivity.
        -- rewrite Hs3. cbn [gitRepos addEvents]. exact Hg2.
        -- rewrite Ht3. apply OutTriggered.
      * erewrite checkCandidate_create_failed by eassumption.
        cbn [snd trace gitRepos addEvents].
        eexists. split; [|split].
        -- rewrite Hs3. cbn [trace addEvents]. rewrite Ht2.
           rewrite <- !app_assoc. cbn [app]. reflexivity.
        -- rewrite Hs3. cbn [gitRepos addEvents]. exact Hg2.
        -- apply OutCreateFailed.
    + erewrite checkCandidate_skipped by eassumption. cbn [snd trace gitRepos].
      eexists. split; [|split].
      * rewrite Ht2. rewrite <- !app_assoc. cbn [app]. reflexivity.
      * exact Hg2.
      * apply OutSkipped.
    + erewrite checkCandidate_determine_failed by eassumption.
      cbn [snd trace gitRepos addEvents].
      eexists. split; [|split].
      * rewrite Ht2. rewrite <- !app_assoc. cbn [app]. reflexivity.
      * exact Hg2.
      * apply OutDetermineFailed.
  - erewrite checkCandidate_load_failed by eassumption.
    pose proof (load_state _ _ _ _ _ _ H1) as ->.
    rewrite addEvents_app. cbn [snd trace gitRepos addEvents app].
    eexists. split; [reflexivity|]. split; [done|]. apply OutConfigFailed.
Qed.

Lemma triggeredEvents_cases w t c appCfg headCommit d h :
  ∃ ns rs,
    triggeredEvents w t c appCfg headCommit d h
    = EvCommitStorePut (App_Id (application c)) (Hash headCommit)
      :: EvEnvironmentGet (Deployment_EnvId d) :: ns ++ rs
    ∧ (ns = [] ∨ ∃ env mentions,
         ns = [EvNotify
                 {| Type_ := EVENT_DEPLOYMENT_TRIGGERED;
                    Metadata := NotificationEventDeploymentTriggered
                                  d env mentions |}])
    ∧ (rs = [] ∨ ∃ log,
         kind c = commandCandidate
         ∧ rs = EvReport (command c) COMMAND_SUCCEEDED (reportMetadata d)
                :: log
         ∧ (log = [] ∨ ∃ err,
              log = [EvLog Error_ "failed to report command status"
                       [zap_Error err]])).
Proof.
  unfold triggeredEvents, notifyEvents, reportEvents.
  destruct (environmentLister_Get _ _ _) as [env|e];
    destruct (decide (kind c = commandCandidate)) as [Hk|Hk];
    try destruct (command_Report w _ _ _ _) as [err|].
  - eexists [_], [_; _]. split; [reflexivity|]. split; eauto 10.
  - eexists [_], [_]. split; [reflexivity|]. split; eauto 10.
  - eexists [_], []. split; [reflexivity|]. split; eauto 10.
  - eexists [], [_; _]. split; [reflexivity|]. split; eauto 10.
  - eexists [], [_]. split; [reflexivity|]. split; eauto 10.
  - eexists [], []. split; [reflexivity|]. split; eauto 10.
Qed.

Lemma updateRepoToLatest_events repoID s :
  ∃ evs,
    trace (updateRepoToLatest repoID s).2 = trace s ++ evs
    ∧ gitRepos (updateRepoToLatest repoID s).2 = gitRepos s
    ∧ commitStore (updateRepoToLatest repoID s).2 = commitStore s
    ∧ (evs = [] ∨ ∃ b, evs = [EvPull repoID b]
                       ∨ evs = [EvPull repoID b; EvGetLatestCommit repoID]).
Proof.
  destruct (gitRepos s !! repoID) as [repo|] eqn:Hr.
  - destruct (updateRepoToLatest_registered _ _ _ Hr)
      as (res & evs & -> & Hevs & _).
    cbn [snd trace gitRepos commitStore addEvents].
    eexists. split; [done|]. split; [done|]. split; [done|].
    right. exists (GetClonedBranch repo). destruct Hevs as [-> | ->]; eauto.
  - rewrite (updateRepoToLatest_unregistered _ _ Hr). cbn [snd].
    exists []. rewrite app_nil_r. eauto.
Qed.

Lemma listCommandCandidates_range_cons t cmd cmds apps s :
  listCommandCandidates_range t (cmd :: cmds) apps s
  = match GetSyncApplication cmd with
    | None => listCommandCandidates_range t cmds apps s
    | Some syncCmd =>
        match applicationLister_Get (t_applicationLister t) (trace s)
                (ApplicationId syncCmd) with
        | Some a =>
            listCommandCandidates_range t cmds
              (apps ++ [{| application := a; kind := commandCandidate;
                           command := cmd |}]) s
        | None =>
            listCommandCandidates_range t cmds apps
              (addEvents s [unregisteredWarning cmd syncCmd])
        end
    end.
Proof.
  cbn [listCommandCandidates_range].
  destruct (GetSyncApplication cmd) as [syncCmd|]; [|done].
  unfold bind at 1, ask.
  by destruct (applicationLister_Get _ _ _).
Qed.

Lemma onOndemandTick_eq w t rg ctx s :
  onOndemandTick w t rg ctx s
  = let (cands, s1) :=
      listCommandCandidates_range t
        (ListApplicationCommands (t_commandLister t) (trace s)) [] s in
    checkCandidates w t rg ctx cands
      (addEvents s1
         [EvLog Info ("found " +:+ pretty (length cands)
                      +:+ " command candidates") []]).
Proof.
  unfold onOndemandTick, listCommandCandidates.
  unfold bind at 1. unfold bind at 1, ask.
  by destruct (listCommandCandidates_range t _ [] s) as [cands s1].
Qed.

Lemma runLoop_sync w t rg ctx sel s :
  runLoop w t rg ctx (syncTicker_C :: sel) s
  = runLoop w t rg ctx sel (onSyncTick w t rg ctx s).2.
Proof.
  cbn [runLoop]. unfold bind at 1. by destruct (onSyncTick w t rg ctx s).
Qed.

Lemma runLoop_ondemand w t rg ctx sel s :
  runLoop w t rg ctx (ondemandTicker_C :: sel) s
  = runLoop w t rg ctx sel (onOndemandTick w t rg ctx s).2.
Proof.
  cbn [runLoop]. unfold bind at 1. by destruct (onOndemandTick w t rg ctx s).
Qed.

Lemma runLoop_done w t rg ctx sel s :
  runLoop w t rg ctx (ctx_Done :: sel) s
  = (Some None,
     addEvents s [EvLog Info "deployment trigger has been stopped" []]).
Proof. reflexivity. Qed.

(** ** A property of every event list the trigger can add

    A property that holds of no event, is kept by appending, and holds of
    what a Git operation, a log entry and one pass through the loop body
    add, holds of what a batch, a tick and the loop of [Run] add. *)
Section events_ind.
Context (w : World) (t : Trigger) (P : list Event → Prop).
Hypothesis P_nil : P [].
Hypothesis P_app : ∀ a b, P a → P b → P (a ++ b).
Hypothesis P_pull : ∀ r b, P [EvPull r b].
Hypothesis P_latest : ∀ r, P [EvGetLatestCommit r].
Hypothesis P_log : ∀ l m f, P [EvLog l m f].
Hypothesis P_candidate : ∀ gitRepo branch headCommit c h evs,
  CandidateOutcome w t gitRepo branch headCommit c h evs → P evs.

Lemma forEach_events gitRepo branch headCommit ds cs s :
  let s' := (forEach cs (checkCandidate w t gitRepo branch headCommit ds) s).2 in
  ∃ evs, trace s' = trace s ++ evs ∧ gitRepos s' = gitRepos s ∧ P evs.
Proof.
  revert s. induction cs as [|c cs IH]; intros s; cbn zeta.
  - exists []. cbn. by rewrite app_nil_r.
  - rewrite forEach_cons.
    destruct (checkCandidate_outcome w t gitRepo branch headCommit ds c s)
      as (evs1 & Ht1 & Hg1 & Ho).
    destruct (IH (checkCandidate w t gitRepo branch headCommit ds c s).2)
      as (evs2 & Ht2 & Hg2 & HP2).
    exists (evs1 ++ evs2). split; [|split].
    + by rewrite Ht2, Ht1, <- app_assoc.
    + by rewrite Hg2, Hg1.
    + apply P_app; [|done]. by eapply P_candidate.
Qed.

Lemma checkRepoCandidates_events ctx repoID cs s :
  let s' := (checkRepoCandidates w t ctx repoID cs s).2 in
  ∃ evs, trace s' = trace s ++ evs ∧ gitRepos s' = gitRepos s ∧ P evs.
Proof.
  cbn zeta.
  destruct (updateRepoToLatest_events repoID s) as (uevs & Htu & Hgu & _ & Hu).
  assert (P uevs) as HPu.
  { destruct Hu as [->|[b [->| ->]]]; [done|done|].
    apply (P_app [_] [_]); done. }
  destruct (updateRepoToLatest repoID s) as [[[[r b] h]|err] s1] eqn:H;
    cbn [snd] in Htu, Hgu.
  - erewrite checkRepoCandidates_updated by eassumption. cbn [snd].
    destruct (forEach_events r b h (determinersOf w r h) cs s1)
      as (evs & Ht & Hg & HP).
    exists (uevs ++ evs). split; [|split].
    + by rewrite Ht, Htu, <- app_assoc.
    + by rewrite Hg.
    + by apply P_app.
  - erewrite checkRepoCandidates_update_failed by eassumption.
    cbn [snd trace gitRepos addEvents].
    exists (uevs ++ updateFailureLog ctx repoID err (trace s1)).
    split; [|split].
    + by rewrite Htu at 1; rewrite <- app_assoc.
    + done.
    + apply P_app; [done|]. unfold updateFailureLog.
      by destruct (decide _).
Qed.

Lemma checkGroups_events ctx groups acc s :
  let s' := (checkGroups w t ctx groups acc s).2 in
  ∃ evs, trace s' = trace s ++ evs ∧ gitRepos s' = gitRepos s ∧ P evs.
Proof.
  revert acc s. induction groups as [|[repoID cs] rest IH]; intros acc s;
    cbn zeta.
  - exists []. cbn. by rewrite app_nil_r.
  - rewrite checkGroups_cons.
    destruct (checkRepoCandidates_events ctx repoID cs s)
      as (evs1 & Ht1 & Hg1 & HP1).
    destruct (checkRepoCandidates w t ctx repoID cs s) as [[e|] s1];
      cbn [snd] in Ht1, Hg1.
    + destruct (IH (Some e) (addEvents s1 [groupFailureLog repoID e]))
        as (evs2 & Ht2 & Hg2 & HP2).
      exists (evs1 ++ [groupFailureLog repoID e] ++ evs2).
      split; [|split].
      * rewrite Ht2. cbn [trace addEvents]. rewrite Ht1.
        by rewrite <- !app_assoc.
      * rewrite Hg2. done.
      * apply P_app; [done|]. apply P_app; [|done]. apply P_log.
    + destruct (IH acc s1) as (evs2 & Ht2 & Hg2 & HP2).
      exists (evs1 ++ evs2). split; [|split].
      * by rewrite Ht2, Ht1, <- app_assoc.
      * by rewrite Hg2.
      * by apply P_app.
Qed.

Lemma checkCandidates_events rg ctx cs s :
  let s' := (checkCandidates w t rg ctx cs s).2 in
  ∃ evs, trace s' = trace s ++ evs ∧ gitRepos s' = gitRepos s ∧ P evs.
Proof. apply checkGroups_events. Qed.

Lemma listCommandCandidates_range_events cmds apps s :
  let s' := (listCommandCandidates_range t cmds apps s).2 in
  ∃ evs, trace s' = trace s ++ evs ∧ gitRepos s' = gitRepos s
         ∧ commitStore s' = commitStore s ∧ P evs.
Proof.
  revert apps s. induction cmds as [|cmd cmds IH]; intros apps s; cbn zeta.
  - exists []. cbn. by rewrite app_nil_r.
  - rewrite listCommandCandidates_range_cons.
    destruct (GetSyncApplication cmd) as [syncCmd|]; [|apply IH].
    destruct (applicationLister_Get _ _ _) as [a|]; [apply IH|].
    destruct (IH apps (addEvents s [unregisteredWarning cmd syncCmd]))
      as (evs & Ht & Hg & Hc & HP).
    cbn [trace gitRepos commitStore addEvents] in Ht, Hg, Hc.
    exists (unregisteredWarning cmd syncCmd :: evs).
    split; [|split; [|split]].
    + rewrite Ht. by rewrite <- app_assoc.
    + done.
    + done.
    + apply (P_app [_]); [apply P_log|done].
Qed.

Lemma onSyncTick_events rg ctx s :
  let s' := (onSyncTick w t rg ctx s).2 in
  ∃ evs, trace s' = trace s ++ evs ∧ gitRepos s' = gitRepos s ∧ P evs.
Proof.
  cbn zeta. unfold onSyncTick, listCommitCandidates, listOutOfSyncCandidates.
  mrun.
  match goal with |- context [checkCandidates w t rg ctx ?cs ?s1] =>
    destruct (checkCandidates_events rg ctx cs s1) as (evs & Ht & Hg & HP) end.
  cbn [trace gitRepos] in Ht, Hg.
  eexists (_ :: evs). split; [|split].
  - rewrite Ht. rewrite <- app_assoc. reflexivity.
  - done.
  - apply (P_app [_]); [apply P_log|done].
Qed.

Lemma onOndemandTick_events rg ctx s :
  let s' := (onOndemandTick w t rg ctx s).2 in
  ∃ evs, trace s' = trace s ++ evs ∧ gitRepos s' = gitRepos s ∧ P evs.
Proof.
  cbn zeta. rewrite onOndemandTick_eq.
  destruct (listCommandCandidates_range_events
              (ListApplicationCommands (t_commandLister t) (trace s)) [] s)
    as (evs1 & Ht1 & Hg1 & _ & HP1).
  destruct (listCommandCandidates_range t _ [] s) as [cands s1].
  cbn [snd] in Ht1, Hg1.
  match goal with |- context [checkCandidates w t rg ctx ?cs ?s2] =>
    destruct (checkCandidates_events rg ctx cs s2) as (evs & Ht & Hg & HP) end.
  cbn [trace gitRepos addEvents] in Ht, Hg.
  eexists (evs1 ++ _ :: evs). split; [|split].
  - rewrite Ht, Ht1. rewrite <- !app_assoc. reflexivity.
  - by rewrite Hg.
  - apply P_app; [done|]. apply (P_app [_]); [apply P_log|done].
Qed.

Lemma runLoop_events rg ctx sel s :
  let s' := (runLoop w t rg ctx sel s).2 in
  ∃ evs, trace s' = trace s ++ evs ∧ gitRepos s' = gitRepos s ∧ P evs.
Proof.
  revert s. induction sel as [|[| |] sel IH]; intros s; cbn zeta.
  - exists []. cbn. by rewrite app_nil_r.
  - rewrite runLoop_sync.
    destruct (onSyncTick_events rg ctx s) as (evs1 & Ht1 & Hg1 & HP1).
    destruct (IH (onSyncTick w t rg ctx s).2) as (evs2 & Ht2 & Hg2 & HP2).
    exists (evs1 ++ evs2). split; [|split].
    + by rewrite Ht2, Ht1, <- app_assoc.
    + by rewrite Hg2.
    + by apply P_app.
  - rewrite runLoop_ondemand.
    destruct (onOndemandTick_events rg ctx s) as (evs1 & Ht1 & Hg1 & HP1).
    destruct (IH (onOndemandTick w t rg ctx s).2) as (evs2 & Ht2 & Hg2 & HP2).
    exists (evs1 ++ evs2). split; [|split].
    + by rewrite Ht2, Ht1, <- app_assoc.
    + by rewrite Hg2.
    + by apply P_app.
  - rewrite runLoop_done. eexists [_]. split; [done|]. split; [done|].
    apply P_log.
Qed.

End events_ind.

(** ** Nothing without its cause *)

Lemma causal_nil : causal [].
Proof. unfold causal. cbn. lia. Qed.

Lemma causal_app a b : causal a → causal b → causal (a ++ b).
Proof.
  unfold causal, reports, createdDeployments, evaluations, puts,
    notifications, loads.
  rewrite !omap_app, !length_app. lia.
Qed.

Lemma causal_outcome w t gitRepo branch headCommit c h evs :
  CandidateOutcome w t gitRepo branch headCommit c h evs → causal evs.
Proof.
  destruct 1 as [err|err| |err|appCfg id];
    try (unfold causal; cbn; lia).
  destruct (triggeredEvents_cases w t c appCfg headCommit
              (withId (requested c branch headCommit) id)
              (h ++ [EvLoadFromYAML (configPath w gitRepo c);
                     EvShouldTrigger (kind c) (application c);
                     EvCreateDeployment (requested c branch headCommit)]))
    as (ns & rs & -> & Hns & Hrs).
  unfold causal, reports, createdDeployments, evaluations, puts,
    notifications, loads.
  cbn [app omap list_omap]. rewrite !omap_app, !length_app.
  destruct Hns as [->|(env & mentions & ->)];
    destruct Hrs as [->|(log & _ & -> & [->|(err & ->)])]; cbn; lia.
Qed.

(** X1.  In what a batch adds to the trace, and in what the loop of [Run]
    adds over any sequence of ticks, there are at most as many command
    reports as submitted deployments, at most as many submitted
    deployments, commit-store writes and notifications as answers of a
    determiner, and at most as many of those as configurations read. *)
Theorem trigger_never_acts_without_cause w t rg ctx :
  (∀ cs s, causal (newEvents s (checkCandidates w t rg ctx cs s).2))
  ∧ (∀ sel s, causal (newEvents s (runLoop w t rg ctx sel s).2)).
Proof.
  assert (∀ l m f, causal [EvLog l m f]) as Hlog
    by (intros; unfold causal; cbn; lia).
  split.
  - intros cs s.
    destruct (checkCandidates_events w t causal causal_nil causal_app
                ltac:(intros; unfold causal; cbn; lia)
                ltac:(intros; unfold causal; cbn; lia)
                Hlog (causal_outcome w t) rg ctx cs s)
      as (evs & Ht & _ & HP).
    by rewrite (newEvents_trace _ _ _ Ht).
  - intros sel s.
    destruct (runLoop_events w t causal causal_nil causal_app
                ltac:(intros; unfold causal; cbn; lia)
                ltac:(intros; unfold causal; cbn; lia)
                Hlog (causal_outcome w t) rg ctx sel s)
      as (evs & Ht & _ & HP).
    by rewrite (newEvents_trace _ _ _ Ht).
Qed.

(** ** One head commit for a whole group *)

Lemma forEach_outcomes w t gitRepo branch headCommit ds
    (P : list Event → Prop) :
  P [] → (∀ a b, P a → P b → P (a ++ b)) →
  (∀ c h evs, CandidateOutcome w t gitRepo branch headCommit c h evs → P evs) →
  ∀ cs s,
    ∃ evs,
      trace (forEach cs (checkCandidate w t gitRepo branch headCommit ds) s).2
      = trace s ++ evs ∧ P evs.
Proof.
  intros Hnil Happ Hc cs. induction cs as [|c cs IH]; intros s.
  - exists []. cbn. by rewrite app_nil_r.
  - rewrite forEach_cons.
    destruct (checkCandidate_outcome w t gitRepo branch headCommit ds c s)
      as (evs1 & Ht1 & _ & Ho).
    destruct (IH (checkCandidate w t gitRepo branch headCommit ds c s).2)
      as (evs2 & Ht2 & HP2).
    exists (evs1 ++ evs2). split.
    + by rewrite Ht2, Ht1, <- app_assoc.
    + apply Happ; [|done]. by eapply Hc.
Qed.

Lemma madeFor_outcome w t gitRepo branch headCommit c h evs :
  CandidateOutcome w t gitRepo branch headCommit c h evs →
  Forall (madeFor branch headCommit) evs.
Proof.
  destruct 1 as [err|err| |err|appCfg id];
    try (repeat constructor; done).
  destruct (triggeredEvents_cases w t c appCfg headCommit
              (withId (requested c branch headCommit) id)
              (h ++ [EvLoadFromYAML (configPath w gitRepo c);
                     EvShouldTrigger (kind c) (application c);
                     EvCreateDeployment (requested c branch headCommit)]))
    as (ns & rs & -> & Hns & Hrs).
  cbn [app]. repeat (constructor; [done|]).
  apply Forall_app. split.
  - destruct Hns as [->|(env & mentions & ->)]; repeat constructor; done.
  - destruct Hrs as [->|(log & _ & -> & [->|(err & ->)])];
      repeat constructor; done.
Qed.

(** X2.  When the repository of a group was brought up to date, the
    working copy is the one cloned for that repository, the branch is the
    branch it was cloned with, the head commit was asked for once, and
    everything the group then does is made for that one commit and branch:
    every write to the commit store stores its hash, every deployment
    submitted or notified has it as its commit and that branch as its
    branch, every failure notification carries its hash and message. *)
Theorem group_acts_on_one_head_commit
    w t ctx repoID cs s gitRepo branch headCommit s0 :
  updateRepoToLatest repoID s = (inl (gitRepo, branch, headCommit), s0) →
  let evs := newEvents s (checkRepoCandidates w t ctx repoID cs s).2 in
  gitRepos s !! repoID = Some gitRepo
  ∧ branch = GetClonedBranch gitRepo
  ∧ pulls evs = [repoID]
  ∧ latestCommitCalls evs = [repoID]
  ∧ Forall (madeFor branch headCommit) evs.
Proof.
  intros Hup evs.
  assert (gitRepos s !! repoID = Some gitRepo
          ∧ branch = GetClonedBranch gitRepo
          ∧ s0 = addEvents s [EvPull repoID branch; EvGetLatestCommit repoID])
    as (Hreg & Hb & Hs0).
  { revert Hup. unfold updateRepoToLatest. mrun.
    destruct (gitRepos s !! repoID) as [repo|]; [|done]. simpl.
    destruct (Pull repo _ _); [done|]. simpl.
    destruct (GetLatestCommit repo _); [|done]. simpl.
    intros [= <- <- <- <-]. unfold addEvents. simpl.
    by rewrite <- app_assoc. }
  destruct (forEach_shape w t gitRepo branch headCommit
              (determinersOf w gitRepo headCommit) cs s0)
    as (st & evs1 & Hf & _ & Hp & Hl & _).
  destruct (forEach_outcomes w t gitRepo branch headCommit
              (determinersOf w gitRepo headCommit)
              (Forall (madeFor branch headCommit))
              (Forall_nil_2 _)
              (λ a b Ha Hb, proj2 (Forall_app _ a b) (conj Ha Hb))
              (λ c h e, madeFor_outcome w t gitRepo branch headCommit c h e)
              cs s0)
    as (evs2 & Ht2 & HP2).
  assert (evs1 = evs2) as <-.
  { rewrite Hf in Ht2. cbn [snd trace] in Ht2. by apply app_inv_head in Ht2. }
  assert (evs = [EvPull repoID branch; EvGetLatestCommit repoID] ++ evs1)
    as ->.
  { unfold evs. erewrite checkRepoCandidates_updated by eassumption.
    cbn [snd]. apply newEvents_app. rewrite Hf. cbn [snd trace].
    rewrite Hs0. reflexivity. }
  split_and!; try done.
  - unfold pulls in *. rewrite omap_app, Hp. done.
  - unfold latestCommitCalls in *. rewrite omap_app, Hl. done.
  - apply Forall_app. split; [repeat constructor; done|done].
Qed.

Lemma group_acts_on_one_head_commit_witness :
  let evs := newEvents Ex.s0
               (checkRepoCandidates Ex.w0 Ex.t0 Ex.ctx "r1"
                  [commitCandidateOf Ex.a1; outOfSyncCandidateOf Ex.a1]
                  Ex.s0).2 in
  latestCommitCalls evs = ["r1"] ∧ Forall (madeFor "master" Ex.head) evs.
Proof.
  intros evs.
  edestruct (group_acts_on_one_head_commit Ex.w0 Ex.t0 Ex.ctx "r1"
               [commitCandidateOf Ex.a1; outOfSyncCandidateOf Ex.a1] Ex.s0)
    as (_ & _ & _ & Hl & Hm).
  - vm_compute. reflexivity.
  - split; [exact Hl|exact Hm].
Defined.

(** ** Run: cloning the repositories *)

Lemma cloneRepositories_cons t r rest s :
  cloneRepositories t (r :: rest) s
  = let clone := EvClone (RepoID r) (Remote r) (Branch r) "" in
    match Clone (t_gitClient t) (trace s ++ [clone]) (RepoID r) (Remote r)
            (Branch r) "" with
    | inr err =>
        (Some err,
         addEvents s [clone;
                      EvLog Error_ ("failed to clone git repository "
                                    +:+ RepoID r) [zap_Error err]])
    | inl repo =>
        cloneRepositories t rest
          {| commitStore := commitStore s;
             gitRepos := <[RepoID r := repo]> (gitRepos s);
             trace := trace s ++ [clone] |}
    end.
Proof.
  cbn [cloneRepositories]. mrun.
  destruct (Clone _ _ _ _ _ _) as [repo|err]; [done|].
  unfold addEvents. simpl. by rewrite <- app_assoc.
Qed.

Lemma cloneRepositories_spec t rs s :
  let res := (cloneRepositories t rs s).1 in
  let s' := (cloneRepositories t rs s).2 in
  commitStore s' = commitStore s
  ∧ ∃ evs, trace s' = trace s ++ evs ∧ startupOnly evs
    ∧ match res with
      | None =>
          clones evs = RepoID <$> rs ∧ logged evs = []
          ∧ dom (gitRepos s')
            = dom (gitRepos s) ∪ list_to_set (RepoID <$> rs)
      | Some err =>
          ∃ n r, rs !! n = Some r
            ∧ clones evs = RepoID <$> take (S n) rs
            ∧ logged evs = [cloneFailureLog r err]
            ∧ dom (gitRepos s')
              = dom (gitRepos s) ∪ list_to_set (RepoID <$> take n rs)
      end.
Proof.
  revert s. induction rs as [|r rs IH]; intros s; cbn zeta.
  - cbn. split; [done|]. exists []. rewrite app_nil_r.
    split; [done|]. split; [constructor|]. split; [done|]. split; [done|].
    set_solver.
  - rewrite cloneRepositories_cons. cbn zeta.
    destruct (Clone _ _ _ _ _ _) as [repo|err].
    + match goal with |- context [cloneRepositories t rs ?s1] =>
        destruct (IH s1) as (Hc & evs & Ht & Hs & Hres) end.
      cbn [commitStore trace gitRepos] in Hc, Ht, Hres.
      split; [done|].
      exists (EvClone (RepoID r) (Remote r) (Branch r) "" :: evs).
      split; [by rewrite Ht, <- app_assoc|].
      split; [by constructor|].
      destruct (cloneRepositories t rs _).1 as [err|].
      * destruct Hres as (n & r' & Hn & Hcl & Hlg & Hd).
        exists (S n), r'. split; [done|].
        split; [cbn; by rewrite <- Hcl|]. split; [done|].
        rewrite Hd, dom_insert_L. cbn [take fmap list_fmap].
        rewrite list_to_set_cons. set_solver.
      * destruct Hres as (Hcl & Hlg & Hd).
        split; [cbn; by rewrite <- Hcl|]. split; [done|].
        rewrite Hd, dom_insert_L, fmap_cons, list_to_set_cons. set_solver.
    + cbn [fst snd commitStore trace gitRepos addEvents].
      split; [done|]. eexists. split; [done|].
      split; [repeat constructor|].
      exists 0, r. split; [done|]. split; [done|]. split; [done|].
      cbn. set_solver.
Qed.

Lemma Run_eq w t rg ctx sel s :
  Run w t rg ctx sel s
  = match (cloneRepositories t (Repositories (t_config t)) (runStart s)).1 with
    | Some err =>
        (Some (Some err),
         (cloneRepositories t (Repositories (t_config t)) (runStart s)).2)
    | None =>
        runLoop w t rg ctx sel
          (cloneRepositories t (Repositories (t_config t)) (runStart s)).2
    end.
Proof.
  unfold Run. unfold bind at 1, logger, emit. unfold bind at 1, resetRepos.
  unfold bind at 1. cbn [trace commitStore gitRepos]. fold (runStart s).
  by destruct (cloneRepositories t _ (runStart s)) as [[err|] s1].
Qed.

Lemma startupOnly_quiet evs :
  startupOnly evs →
  pulls evs = [] ∧ latestCommitCalls evs = [] ∧ loads evs = []
  ∧ evaluations evs = [] ∧ createdDeployments evs = [] ∧ puts evs = []
  ∧ notifications evs = [] ∧ reports evs = [].
Proof.
  induction 1 as [|e evs He _ IH]; [done|].
  destruct e; try done; cbn; exact IH.
Qed.

(** X3.  When cloning one of the configured repositories fails, [Run]
    returns that error whatever would have fired afterwards: the
    repositories before it were cloned in the order of the configuration,
    the ones after it were not, the failure is logged once with the id of
    the repository, and no tick runs (nothing is pulled, read, evaluated,
    submitted, stored, notified or reported). *)
Theorem run_stops_when_a_clone_fails w t rg ctx sel s err :
  (cloneRepositories t (Repositories (t_config t)) (runStart s)).1
    = Some err →
  let evs := newEvents (runStart s) (Run w t rg ctx sel s).2 in
  (Run w t rg ctx sel s).1 = Some (Some err)
  ∧ commitStore (Run w t rg ctx sel s).2 = commitStore s
  ∧ (∃ n r, Repositories (t_config t) !! n = Some r
       ∧ clones evs = RepoID <$> take (S n) (Repositories (t_config t))
       ∧ logged evs = [cloneFailureLog r err]
       ∧ dom (gitRepos (Run w t rg ctx sel s).2)
         = list_to_set (RepoID <$> take n (Repositories (t_config t))))
  ∧ pulls evs = [] ∧ latestCommitCalls evs = [] ∧ loads evs = []
  ∧ evaluations evs = [] ∧ createdDeployments evs = [] ∧ puts evs = []
  ∧ notifications evs = [] ∧ reports evs = [].
Proof.
  intros Hfail evs. unfold evs. rewrite Run_eq, Hfail. cbn [fst snd].
  destruct (cloneRepositories_spec t (Repositories (t_config t)) (runStart s))
    as (Hc & cevs & Ht & Hs & Hres).
  cbn zeta in Hres. rewrite Hfail in Hres.
  rewrite (newEvents_trace _ _ _ Ht).
  destruct Hres as (n & r & Hn & Hcl & Hlg & Hd).
  split; [done|]. split; [by rewrite Hc|].
  split; [|by apply startupOnly_quiet].
  exists n, r. split_and!; try done.
  rewrite Hd. cbn [runStart gitRepos]. set_solver.
Qed.

Lemma run_stops_when_a_clone_fails_witness :
  (Run Ex.w0 Ex2.tNoClone Ex.ascending Ex.ctx
     [syncTicker_C; ondemandTicker_C; ctx_Done] Ex.sEmpty).1
  = Some (Some (Errorf "clone failed"))
  ∧ clones (trace (Run Ex.w0 Ex2.tNoClone Ex.ascending Ex.ctx
                     [syncTicker_C; ondemandTicker_C; ctx_Done] Ex.sEmpty).2)
    = ["r1"; "r2"].
Proof.
  edestruct (run_stops_when_a_clone_fails Ex.w0 Ex2.tNoClone Ex.ascending
               Ex.ctx [syncTicker_C; ondemandTicker_C; ctx_Done] Ex.sEmpty)
    as (Hres & _).
  - vm_compute. reflexivity.
  - split; [exact Hres|]. vm_compute. reflexivity.
Defined.

(** ** Run: the loop *)







(** ** The command collector *)

Lemma listCommandCandidates_range_spec t cmds apps s :
  ∃ new warned,
    (listCommandCandidates_range t cmds apps s).1 = apps ++ new
    ∧ trace (listCommandCandidates_range t cmds apps s).2
      = trace s ++ ((λ p, unregisteredWarning p.1 p.2) <$> warned)
    ∧ Forall (λ c, kind c = commandCandidate
                   ∧ ∃ h syncCmd,
                       GetSyncApplication (command c) = Some syncCmd
                       ∧ applicationLister_Get (t_applicationLister t) h
                           (ApplicationId syncCmd) = Some (application c)) new
    ∧ command <$> new `sublist_of` cmds
    ∧ warned.*1 `sublist_of` cmds
    ∧ Forall (λ p, GetSyncApplication p.1 = Some p.2) warned
    ∧ length new + length warned
      = length (filter (λ cmd, is_Some (GetSyncApplication cmd)) cmds).
Proof.
  revert apps s. induction cmds as [|cmd cmds IH]; intros apps s.
  - exists [], []. cbn. rewrite !app_nil_r. split_and!; try done.
    all: constructor.
  - rewrite listCommandCandidates_range_cons. rewrite filter_cons.
    destruct (GetSyncApplication cmd) as [syncCmd|] eqn:Hsync.
    + rewrite decide_True by eauto.
      destruct (applicationLister_Get (t_applicationLister t) (trace s)
                  (ApplicationId syncCmd)) as [a|] eqn:Hget.
      * destruct (IH (apps ++ [{| application := a; kind := commandCandidate;
                                  command := cmd |}]) s)
          as (new & warned & Hr & Ht & Hf & Hs1 & Hs2 & Hw & Hlen).
        exists ({| application := a; kind := commandCandidate;
                   command := cmd |} :: new), warned.
        split_and!; try done.
        -- by rewrite Hr, <- app_assoc.
        -- constructor; [|done]. split; [done|]. eauto.
        -- cbn. by constructor.
        -- by apply sublist_cons.
        -- cbn. lia.
      * destruct (IH apps (addEvents s [unregisteredWarning cmd syncCmd]))
          as (new & warned & Hr & Ht & Hf & Hs1 & Hs2 & Hw & Hlen).
        exists new, ((cmd, syncCmd) :: warned).
        split_and!; try done.
        -- rewrite Ht. cbn [trace addEvents fmap list_fmap fst snd].
           by rewrite <- app_assoc.
        -- by apply sublist_cons.
        -- cbn. by constructor.
        -- by constructor.
        -- cbn. lia.
    + rewrite decide_False by (by intros [? ?]).
      destruct (IH apps s)
        as (new & warned & Hr & Ht & Hf & Hs1 & Hs2 & Hw & Hlen).
      exists new, warned. split_and!; try done; by apply sublist_cons.
Qed.


(** ** Grouping loses nothing *)

Lemma groupByRepo_step (m : gmap string (list candidate)) c :
  let k := Repo_Id (GitPath (application c)) in
  concat (map_to_list
            (match m !! k with
             | None => <[k := [c]]> m
             | Some l => <[k := l ++ [c]]> m
             end)).*2
  ≡ₚ concat (map_to_list m).*2 ++ [c].
Proof.
  intros k. destruct (m !! k) as [l|] eqn:Hm.
  - rewrite <- insert_delete_eq.
    rewrite map_to_list_insert by apply lookup_delete_eq.
    rewrite <- (map_to_list_delete m k l Hm).
    cbn [fmap list_fmap snd concat].
    rewrite <- !app_assoc. apply Permutation_app_head.
    apply Permutation_app_comm.
  - rewrite map_to_list_insert by done.
    cbn [fmap list_fmap snd concat app].
    apply Permutation_cons_append.
Qed.

Lemma groupByRepo_concat cs :
  concat (map_to_list (groupByRepo cs)).*2 ≡ₚ cs.
Proof.
  unfold groupByRepo.
  assert (∀ m : gmap string (list candidate),
    concat (map_to_list
      (foldl (λ csm c,
                let repoId := Repo_Id (GitPath (application c)) in
                match csm !! repoId with
                | None => <[repoId := [c]]> csm
                | Some l => <[repoId := l ++ [c]]> csm
                end) m cs)).*2
    ≡ₚ concat (map_to_list m).*2 ++ cs) as H.
  { induction cs as [|c cs IH]; intros m.
    - by rewrite app_nil_r.
    - cbn [foldl]. rewrite IH. rewrite (groupByRepo_step m c).
      by rewrite <- app_assoc. }
  rewrite H. by rewrite map_to_list_empty.
Qed.

(** X7.  Grouping loses and repeats nothing: the groups of a batch, in
    whatever order the map is ranged over, hold together exactly the
    candidates of the batch; a group is never empty, holds candidates of
    its repository only, and keeps them in the order of the batch. *)
Theorem grouping_is_a_partition (rg : MapRange) cs :
  concat (range rg (groupByRepo cs)).*2 ≡ₚ cs
  ∧ ∀ r l, groupByRepo cs !! r = Some l →
      l ≠ [] ∧ Forall (λ c, repoOf c = r) l ∧ l `sublist_of` cs.
Proof.
  split.
  - rewrite (range_perm rg (groupByRepo cs)). apply groupByRepo_concat.
  - intros r l Hl. rewrite groupByRepo_lookup in Hl.
    destruct (filter (λ c, repoOf c = r) cs) as [|c l'] eqn:Hf; [done|].
    injection Hl as <-. split; [done|]. rewrite <- Hf. split.
    + apply Forall_forall. by intros c' [? _]%list_elem_of_filter.
    + apply sublist_filter.
Qed.

(** ** A batch without error *)



(** ** Loading a configuration *)

(** X9.  [loadDeploymentConfiguration] reads one file, the configuration
    path of the application under the path of the working copy, and changes
    nothing else.  It returns a deployment configuration only when that
    file was loaded, its kind converts to the kind of the application, and
    it has a generic deployment, which is what is returned; when the file
    does not exist the error names the path relative to the repository, and
    any other error of the loader is returned as it is. *)
Theorem loaded_configuration_matches_application w repoPath app s :
  let relPath := GetDeploymentConfigFilePath (GitPath app) in
  let absPath := filepath_Join w repoPath relPath in
  let answer := config_LoadFromYAML w (trace s ++ [EvLoadFromYAML absPath])
                  absPath in
  let res := (loadDeploymentConfiguration w repoPath app s).1 in
  (loadDeploymentConfiguration w repoPath app s).2
    = addEvents s [EvLoadFromYAML absPath]
  ∧ (∀ spec, res = inl spec ↔
       ∃ cfg, answer = inl cfg
         ∧ config_ToApplicationKind w (Kind cfg) = (App_Kind app, true)
         ∧ GetGenericDeployment cfg = Some spec)
  ∧ (∀ p, answer = inr (ErrNotExist p) →
       res = inr (Errorf ("application config file " +:+ relPath
                          +:+ " was not found in Git")))
  ∧ (∀ msg, answer = inr (Errorf msg) → res = inr (Errorf msg)).
Proof.
  intros relPath absPath answer res.
  split; [apply loadDeploymentConfiguration_events|].
  unfold res, loadDeploymentConfiguration. mrun.
  fold relPath. fold absPath. fold answer.
  destruct answer as [cfg|err].
  - destruct (config_ToApplicationKind w (Kind cfg)) as [appKind ok] eqn:Hk.
    split_and!; try done.
    intros spec. destruct ok; simpl.
    + destruct (decide (appKind = App_Kind app)) as [->|Hne].
      * rewrite bool_decide_true by done. simpl.
        destruct (GetGenericDeployment cfg) as [spec'|] eqn:Hg; simpl.
        -- split.
           ++ intros [= <-]. eauto.
           ++ intros (cfg' & [= <-] & _ & Hg'). congruence.
        -- split; [done|]. intros (cfg' & [= <-] & _ & Hg'). congruence.
      * rewrite bool_decide_false by done. simpl.
        split; [done|]. intros (cfg' & [= <-] & Hk' & _). congruence.
    + split; [done|]. intros (cfg' & [= <-] & Hk' & _). congruence.
  - split_and!.
    + intros spec. destruct (os_IsNotExist err); simpl;
        (split; [done|]); by intros (cfg & ? & _).
    + by intros p [= ->].
    + by intros msg [= ->].
Qed.

(** ** The other ways through the loop body *)

(** X10.  When the determiner answers false, the loop body only moves the
    watermark: after the read of the configuration and the question to the
    determiner it writes the head commit to the commit store, and it
    submits no deployment, notifies nothing, reports no command and logs
    nothing. *)
Theorem negative_answer_only_moves_the_watermark
    w t gitRepo branch headCommit ds c s appCfg s1 s2 :
  loadDeploymentConfiguration w (GetPath gitRepo) (application c) s
    = (inl appCfg, s1) →
  callShouldTrigger (determiners_Determiner ds (kind c)) (kind c)
    (application c) appCfg s1 = (inl false, s2) →
  let s' := (checkCandidate w t gitRepo branch headCommit ds c s).2 in
  newEvents s s'
  = [EvLoadFromYAML (configPath w gitRepo c);
     EvShouldTrigger (kind c) (application c);
     EvCommitStorePut (App_Id (application c)) (Hash headCommit)]
  ∧ commitStore s'
    = store_Put (App_Id (application c)) (Hash headCommit) (commitStore s2)
  ∧ gitRepos s' = gitRepos s.
Proof.
  intros H1 H2 s'.
  pose proof (evaluated_trace _ _ _ _ _ _ _ _ _ _ H1 H2) as Ht2.
  pose proof (load_state _ _ _ _ _ _ H1) as Hs1.
  destruct (callShouldTrigger_state _ _ _ _ _ _ _ H2) as [Hg2 _].
  unfold s'. erewrite checkCandidate_skipped by eassumption.
  cbn [snd commitStore gitRepos]. split_and!.
  - apply newEvents_trace. cbn [trace]. rewrite Ht2.
    by rewrite <- app_assoc.
  - done.
  - rewrite Hg2, Hs1. done.
Qed.

Lemma negative_answer_only_moves_the_watermark_witness :
  let s := {| commitStore := {| cache := [("a1", "H1")] |};
              gitRepos := gitRepos Ex.s0; trace := [] |} in
  newEvents s
    (checkCandidate Ex.w0 Ex.t0 (Ex.repo "/repos/r1") "master" Ex.head
       (determinersOf Ex.w0 (Ex.repo "/repos/r1") Ex.head)
       (commitCandidateOf Ex.a1) s).2
  = [EvLoadFromYAML "/repos/r1/a1/.pipe.yaml";
     EvShouldTrigger commitCandidate Ex.a1;
     EvCommitStorePut "a1" "H1"].
Proof.
  intros s.
  edestruct (negative_answer_only_moves_the_watermark Ex.w0 Ex.t0
               (Ex.repo "/repos/r1") "master" Ex.head
               (determinersOf Ex.w0 (Ex.repo "/repos/r1") Ex.head)
               (commitCandidateOf Ex.a1) s) as (Hev & _).
  - vm_compute. reflexivity.
  - vm_compute. reflexivity.
  - exact Hev.
Defined.

(** X11.  When a deployment is created and the environment lister answers,
    the loop body submits the deployment, writes the head commit to the
    commit store, asks for the environment and then notifies once, in this
    order: the notification is of type DEPLOYMENT_TRIGGERED and carries the
    deployment with the id the control plane gave, the name of the
    environment and the accounts the configuration mentions for that event
    (none when it has no notification setting). *)
Theorem triggered_deployment_is_notified_after_it_is_created
    w t gitRepo branch headCommit ds c s appCfg s1 s2 d s3 env :
  loadDeploymentConfiguration w (GetPath gitRepo) (application c) s
    = (inl appCfg, s1) →
  callShouldTrigger (determiners_Determiner ds (kind c)) (kind c)
    (application c) appCfg s1 = (inl true, s2) →
  triggerDeployment t (application c) appCfg branch headCommit ""
    SyncStrategy_AUTO s2 = (inl d, s3) →
  environmentLister_Get (t_environmentLister t)
    (trace s3 ++ [EvCommitStorePut (App_Id (application c)) (Hash headCommit);
                  EvEnvironmentGet (Deployment_EnvId d)])
    (Deployment_EnvId d) = inl env →
  let s' := (checkCandidate w t gitRepo branch headCommit ds c s).2 in
  let triggered :=
    {| Type_ := EVENT_DEPLOYMENT_TRIGGERED;
       Metadata := NotificationEventDeploymentTriggered d (Env_Name env)
         match DeploymentNotification_ appCfg with
         | Some n => FindSlackAccounts n EVENT_DEPLOYMENT_TRIGGERED
         | None => []
         end |} in
  notifications (newEvents s s') = [triggered]
  ∧ ∃ rest,
      newEvents s s'
      = [EvLoadFromYAML (configPath w gitRepo c);
         EvShouldTrigger (kind c) (application c);
         EvCreateDeployment (requested c branch headCommit);
         EvCommitStorePut (App_Id (application c)) (Hash headCommit);
         EvEnvironmentGet (Deployment_EnvId d);
         EvNotify triggered] ++ rest
      ∧ notifications rest = [] ∧ createdDeployments rest = []
      ∧ puts rest = [].
Proof.
  intros H1 H2 H3 Henv s' triggered.
  pose proof (evaluated_trace _ _ _ _ _ _ _ _ _ _ H1 H2) as Ht2.
  pose proof (triggerDeployment_state _ _ _ _ _ _ _ _ _ _ H3) as Hs3.
  assert (trace s3 = trace s ++
            [EvLoadFromYAML (configPath w gitRepo c);
             EvShouldTrigger (kind c) (application c);
             EvCreateDeployment (requested c branch headCommit)]) as Ht3.
  { rewrite Hs3. cbn [trace addEvents]. rewrite Ht2.
    by rewrite <- app_assoc. }
  set (put := EvCommitStorePut (App_Id (application c)) (Hash headCommit)).
  assert (notifyEvents t appCfg d (trace s3 ++ [put])
          = [EvEnvironmentGet (Deployment_EnvId d); EvNotify triggered])
    as Hns.
  { unfold notifyEvents. rewrite <- app_assoc. cbn [app]. unfold put.
    by rewrite Henv. }
  assert (newEvents s s'
          = [EvLoadFromYAML (configPath w gitRepo c);
             EvShouldTrigger (kind c) (application c);
             EvCreateDeployment (requested c branch headCommit);
             put; EvEnvironmentGet (Deployment_EnvId d); EvNotify triggered]
            ++ reportEvents w c d
                 (trace s3 ++ [put; EvEnvironmentGet (Deployment_EnvId d);
                               EvNotify triggered]))
    as Hnew.
  { apply newEvents_app. unfold s'.
    erewrite checkCandidate_triggered by eassumption. cbn [snd trace].
    unfold triggeredEvents. fold put. rewrite Hns.
    rewrite Ht3 at 1. rewrite <- !app_assoc. reflexivity. }
  match type of Hnew with _ = _ ++ reportEvents w c d ?h =>
    destruct (reportEvents_quiet w c d h) as (_&_&_&Hr1&Hr2&Hr3&_) end.
  split.
  - rewrite Hnew. unfold notifications in *. rewrite omap_app, Hr3. done.
  - eexists. split; [exact Hnew|]. done.
Qed.

Lemma triggered_deployment_is_notified_after_it_is_created_witness :
  Type_ <$> notifications
    (newEvents Ex.s0
       (checkCandidate Ex.w0 Ex.t0 (Ex.repo "/repos/r1") "master" Ex.head
          (determinersOf Ex.w0 (Ex.repo "/repos/r1") Ex.head)
          (outOfSyncCandidateOf Ex.a1) Ex.s0).2)
  = [EVENT_DEPLOYMENT_TRIGGERED].
Proof.
  edestruct (triggered_deployment_is_notified_after_it_is_created
               Ex.w0 Ex.t0 (Ex.repo "/repos/r1") "master" Ex.head
               (determinersOf Ex.w0 (Ex.repo "/repos/r1") Ex.head)
               (outOfSyncCandidateOf Ex.a1) Ex.s0) as (Hn & _).
  - vm_compute. reflexivity.
  - vm_compute. reflexivity.
  - vm_compute. reflexivity.
  - vm_compute. reflexivity.
  - rewrite Hn. reflexivity.
Defined.

(** ** Errors of the update of a repository *)

(** X12.  For a repository that was cloned, [checkRepoCandidates] pulls
    the branch the repository was cloned with.  When the pull fails it
    returns the error of the pull and does not ask for the head commit;
    when the pull succeeds and the head commit cannot be read it returns
    that error.  In both cases no candidate of the group is looked at. *)
Theorem update_errors_are_returned_as_they_are w t ctx repoID cs s repo :
  gitRepos s !! repoID = Some repo →
  let branch := GetClonedBranch repo in
  let pull := EvPull repoID branch in
  let res := (checkRepoCandidates w t ctx repoID cs s).1 in
  let evs := newEvents s (checkRepoCandidates w t ctx repoID cs s).2 in
  pulls evs = [repoID]
  ∧ (∀ err, Pull repo (trace s ++ [pull]) branch = Some err →
       res = Some err ∧ latestCommitCalls evs = [] ∧ loads evs = []
       ∧ logged evs
         = logged (updateFailureLog ctx repoID err (trace s ++ [pull])))
  ∧ (∀ err, Pull repo (trace s ++ [pull]) branch = None →
       GetLatestCommit repo (trace s ++ [pull; EvGetLatestCommit repoID])
         = inr err →
       res = Some err ∧ latestCommitCalls evs = [repoID] ∧ loads evs = []
       ∧ logged evs
         = logged (updateFailureLog ctx repoID err
                     (trace s ++ [pull; EvGetLatestCommit repoID]))).
Proof.
  intros Hreg branch pull res evs.
  assert (pulls evs = [repoID]) as Hp.
  { destruct (checkRepoCandidates_shape w t ctx repoID cs s)
      as (st & evs' & Hs & Hp & _).
    unfold evs. rewrite Hs. erewrite newEvents_trace by (cbn; reflexivity).
    rewrite Hp. unfold registered. rewrite Hreg.
    by rewrite bool_decide_true by eauto. }
  split; [done|]. split.
  - intros err Hpull.
    assert (updateRepoToLatest repoID s = (inr err, addEvents s [pull])) as Hup.
    { unfold updateRepoToLatest. mrun. rewrite Hreg. simpl.
      fold branch. fold pull. by rewrite Hpull. }
    unfold res, evs.
    erewrite checkRepoCandidates_update_failed by eassumption.
    cbn [fst snd]. rewrite addEvents_app, newEvents_addEvents.
    cbn [trace addEvents].
    destruct (updateFailureLog_quiet ctx repoID err (trace s ++ [pull]))
      as (_ & Hq2 & Hq3 & _).
    unfold latestCommitCalls, loads, logged in *. cbn [app omap list_omap].
    by rewrite Hq2, Hq3.
  - intros err Hpull Hlatest.
    assert (updateRepoToLatest repoID s
            = (inr err, addEvents s [pull; EvGetLatestCommit repoID])) as Hup.
    { unfold updateRepoToLatest. mrun. rewrite Hreg. simpl.
      fold branch. fold pull. rewrite Hpull. simpl.
      rewrite <- app_assoc. cbn [app]. rewrite Hlatest. simpl.
      unfold addEvents. simpl. by rewrite <- ?app_assoc. }
    unfold res, evs.
    erewrite checkRepoCandidates_update_failed by eassumption.
    cbn [fst snd]. rewrite addEvents_app, newEvents_addEvents.
    cbn [trace addEvents].
    destruct (updateFailureLog_quiet ctx repoID err
                (trace s ++ [pull; EvGetLatestCommit repoID]))
      as (_ & Hq2 & Hq3 & _).
    unfold latestCommitCalls, loads, logged in *. cbn [app omap list_omap].
    by rewrite Hq2, Hq3.
Qed.

Lemma update_errors_are_returned_as_they_are_witness :
  (checkRepoCandidates Ex.w0 Ex.t0 Ex.ctx "r1" [commitCandidateOf Ex.a1]
     Ex.sBroken).1 = Some (Errorf "fetch failed")
  ∧ latestCommitCalls
      (newEvents Ex.sBroken
         (checkRepoCandidates Ex.w0 Ex.t0 Ex.ctx "r1" [commitCandidateOf Ex.a1]
            Ex.sBroken).2) = [].
Proof.
  edestruct (update_errors_are_returned_as_they_are Ex.w0 Ex.t0 Ex.ctx "r1"
               [commitCandidateOf Ex.a1] Ex.sBroken) as (_ & Hpull & _).
  - vm_compute. reflexivity.
  - edestruct (Hpull (Errorf "fetch failed")) as (Hres & Hl & _).
    + reflexivity.
    + split; [exact Hres|exact Hl].
Defined.

(** X13.  When the update of a repository fails, the failure is logged
    twice, once by [checkRepoCandidates] and once by [checkCandidates],
    unless the context is cancelled at that moment: then the first entry is
    left out, and the entry of [checkCandidates] is still written. *)
Theorem update_failure_is_logged_when_cancelled
    w t ctx repoID cs acc s err s1 :
  updateRepoToLatest repoID s = (inr err, s1) →
  let s' := (checkGroups w t ctx [(repoID, cs)] acc s).2 in
  let outer := (Error_, "failed while checking applications in repo "
                        +:+ repoID, [zap_Error err]) in
  let inner := (Error_, "failed to update git repository " +:+ repoID
                        +:+ " to latest", [zap_Error err]) in
  (checkGroups w t ctx [(repoID, cs)] acc s).1 = Some err
  ∧ logged (newEvents s1 s')
    = if decide (ctx_Err ctx (trace s1) = Some Canceled)
      then [outer] else [inner; outer].
Proof.
  intros Hup s' outer inner. unfold s'.
  rewrite checkGroups_cons.
  erewrite checkRepoCandidates_update_failed by eassumption.
  cbn [checkGroups ret fst snd]. split; [done|].
  rewrite addEvents_app, newEvents_addEvents.
  unfold updateFailureLog. by destruct (decide _).
Qed.

Lemma update_failure_is_logged_when_cancelled_witness :
  logged (trace (checkGroups Ex.w0 Ex.t0 Ex2.cancelled
                   [("r1", [commitCandidateOf Ex.a1])] None Ex.sEmpty).2)
  = [(Error_, "failed while checking applications in repo r1",
      [("error", "the repository was not registered in Piped configuration")])].
Proof.
  edestruct (update_failure_is_logged_when_cancelled Ex.w0 Ex.t0 Ex2.cancelled
               "r1" [commitCandidateOf Ex.a1] None Ex.sEmpty) as (_ & Hlog).
  - vm_compute. reflexivity.
  - exact Hlog.
Defined.

(** ** A tick with nothing to do *)

Lemma range_empty (rg : MapRange) : range rg ∅ = [].
Proof.
  apply Permutation_nil_r. rewrite (range_perm rg ∅).
  by rewrite map_to_list_empty.
Qed.

(** X14.  A batch without candidates does nothing and returns nil, in
    particular no repository is pulled.  So a sync tick when the lister has
    no application, and an on-demand tick when no command is pending, only
    log that they found no candidate. *)
Theorem tick_without_candidates_does_nothing w t rg ctx s :
  checkCandidates w t rg ctx [] s = (None, s)
  ∧ (applicationLister_List (t_applicationLister t) (trace s) = [] →
     onSyncTick w t rg ctx s
     = (None,
        addEvents s
          [EvLog Info "found 0 candidates: 0 commit candidates and 0 out_of_sync candidates"
             []]))
  ∧ (ListApplicationCommands (t_commandLister t) (trace s) = [] →
     onOndemandTick w t rg ctx s
     = (None, addEvents s [EvLog Info "found 0 command candidates" []])).
Proof.
  assert (∀ s0, checkCandidates w t rg ctx [] s0 = (None, s0)) as Hempty.
  { intros s0. unfold checkCandidates, groupByRepo. cbn [foldl].
    by rewrite range_empty. }
  split; [apply Hempty|]. split.
  - intros Hl. unfold onSyncTick, listCommitCandidates,
      listOutOfSyncCandidates. mrun. rewrite Hl. cbn. apply Hempty.
  - intros Hl. rewrite onOndemandTick_eq, Hl. cbn. apply Hempty.
Qed.

(** ** What the determiners are asked *)

Lemma evaluations_outcome w t gitRepo branch headCommit c h evs :
  CandidateOutcome w t gitRepo branch headCommit c h evs →
  evaluations evs = [] ∨ evaluations evs = [question c].
Proof.
  destruct 1 as [err|err| |err|appCfg id]; try (by left); try (by right).
  destruct (triggeredEvents_cases w t c appCfg headCommit
              (withId (requested c branch headCommit) id)
              (h ++ [EvLoadFromYAML (configPath w gitRepo c);
                     EvShouldTrigger (kind c) (application c);
                     EvCreateDeployment (requested c branch headCommit)]))
    as (ns & rs & -> & Hns & Hrs).
  right. unfold evaluations. cbn [app omap list_omap]. rewrite omap_app.
  by destruct Hns as [->|(env & mentions & ->)];
    destruct Hrs as [->|(log & _ & -> & [->|(err & ->)])].
Qed.

Lemma reports_outcome w t gitRepo branch headCommit c h evs :
  CandidateOutcome w t gitRepo branch headCommit c h evs →
  kind c ≠ commandCandidate → reports evs = [].
Proof.
  destruct 1 as [err|err| |err|appCfg id]; try done.
  intros Hk.
  destruct (triggeredEvents_cases w t c appCfg headCommit
              (withId (requested c branch headCommit) id)
              (h ++ [EvLoadFromYAML (configPath w gitRepo c);
                     EvShouldTrigger (kind c) (application c);
                     EvCreateDeployment (requested c branch headCommit)]))
    as (ns & rs & -> & Hns & Hrs).
  unfold reports. cbn [app omap list_omap]. rewrite omap_app.
  by destruct Hns as [->|(env & mentions & ->)];
    destruct Hrs as [->|(log & Hk' & _)].
Qed.

Lemma forEach_evaluations w t gitRepo branch headCommit ds cs s :
  ∃ evs,
    trace (forEach cs (checkCandidate w t gitRepo branch headCommit ds) s).2
    = trace s ++ evs
    ∧ evaluations evs `sublist_of` question <$> cs
    ∧ (Forall (λ c, kind c ≠ commandCandidate) cs → reports evs = []).
Proof.
  revert s. induction cs as [|c cs IH]; intros s.
  - exists []. cbn. rewrite app_nil_r. by split_and!.
  - rewrite forEach_cons.
    destruct (checkCandidate_outcome w t gitRepo branch headCommit ds c s)
      as (evs1 & Ht1 & Hg1 & Ho).
    destruct (IH (checkCandidate w t gitRepo branch headCommit ds c s).2)
      as (evs2 & Ht2 & Hsub & Hrep).
    exists (evs1 ++ evs2). split; [|split].
    + by rewrite Ht2, Ht1, <- app_assoc.
    + unfold evaluations in *. rewrite omap_app. rewrite fmap_cons.
      destruct (evaluations_outcome _ _ _ _ _ _ _ _ Ho) as [He|He];
        unfold evaluations in He; rewrite He.
      * by apply sublist_cons.
      * by apply sublist_skip.
    + intros [Hk Hks]%Forall_cons. unfold reports in *. rewrite omap_app.
      pose proof (reports_outcome _ _ _ _ _ _ _ _ Ho Hk) as Hr1.
      unfold reports in Hr1. by rewrite Hr1, Hrep.
Qed.

Lemma checkGroups_evaluations w t ctx groups acc s :
  ∃ evs,
    trace (checkGroups w t ctx groups acc s).2 = trace s ++ evs
    ∧ evaluations evs `sublist_of` question <$> concat groups.*2
    ∧ (Forall (λ c, kind c ≠ commandCandidate) (concat groups.*2) →
       reports evs = []).
Proof.
  revert acc s. induction groups as [|[repoID cs] rest IH]; intros acc s.
  - exists []. cbn. rewrite app_nil_r. by split_and!.
  - rewrite checkGroups_cons. cbn [fmap list_fmap snd concat].
    rewrite fmap_app.
    destruct (updateRepoToLatest_events repoID s) as (uevs & Htu & _ & _ & Hu).
    assert (evaluations uevs = [] ∧ reports uevs = []) as [Heu Hru]
      by (by destruct Hu as [->|[b [->| ->]]]).
    destruct (updateRepoToLatest repoID s) as [[[[r b] h]|err] s1] eqn:Hup;
      cbn [snd] in Htu.
    + erewrite checkRepoCandidates_updated by eassumption.
      destruct (forEach_evaluations w t r b h (determinersOf w r h) cs s1)
        as (fevs & Hf & Hsub & Hrep).
      match goal with |- context [checkGroups w t ctx rest acc ?s2] =>
        destruct (IH acc s2) as (evs & Ht & Hsub2 & Hrep2) end.
      exists (uevs ++ fevs ++ evs). split; [|split].
      * rewrite Ht, Hf, Htu. by rewrite <- !app_assoc.
      * unfold evaluations in *. rewrite !omap_app, Heu. cbn [app].
        by apply sublist_app.
      * intros [Hc1 Hc2]%Forall_app. unfold reports in *.
        rewrite !omap_app, Hru, Hrep, Hrep2; done.
    + erewrite checkRepoCandidates_update_failed by eassumption.
      match goal with |- context [checkGroups w t ctx rest (Some err) ?s2] =>
        destruct (IH (Some err) s2) as (evs & Ht & Hsub2 & Hrep2) end.
      cbn [trace addEvents] in Ht.
      destruct (updateFailureLog_quiet ctx repoID err (trace s1))
        as (_ & _ & _ & _ & _ & Hq6 & _ & Hq8).
      exists (uevs ++ updateFailureLog ctx repoID err (trace s1)
              ++ [groupFailureLog repoID err] ++ evs).
      split; [|split].
      * rewrite Ht. rewrite Htu at 1. by rewrite <- !app_assoc.
      * unfold evaluations in *. rewrite !omap_app, Heu, Hq8. cbn [app].
        by apply sublist_inserts_l.
      * intros [Hc1 Hc2]%Forall_app. unfold reports in *.
        rewrite !omap_app, Hru, Hq6, Hrep2; done.
Qed.

(** X15.  In a batch a determiner is asked at most once per candidate,
    with the kind and the application of the candidate, group after group
    in the order the groups are visited and in the order of the batch
    within a group. *)
Theorem determiners_are_asked_once_per_candidate w t rg ctx cs s :
  let visited := concat (range rg (groupByRepo cs)).*2 in
  let evs := newEvents s (checkCandidates w t rg ctx cs s).2 in
  evaluations evs `sublist_of` question <$> visited
  ∧ visited ≡ₚ cs
  ∧ length (evaluations evs) ≤ length cs.
Proof.
  intros visited evs.
  destruct (checkGroups_evaluations w t ctx (range rg (groupByRepo cs)) None s)
    as (gevs & Ht & Hsub & _).
  assert (evs = gevs) as -> by (by apply newEvents_trace).
  assert (visited ≡ₚ cs) as Hperm.
  { unfold visited. rewrite (range_perm rg (groupByRepo cs)).
    apply groupByRepo_concat. }
  split_and!; try done.
  apply sublist_length in Hsub. rewrite length_fmap in Hsub.
  by rewrite <- (Permutation_length Hperm).
Qed.

Lemma onSyncTick_eq w t rg ctx s :
  let apps := applicationLister_List (t_applicationLister t) (trace s) in
  let commits := commitCandidateOf <$> apps in
  let outOfSyncs :=
    outOfSyncCandidateOf <$>
      filter (λ a, SyncState_Status a = OUT_OF_SYNC) apps in
  ∃ msg,
    onSyncTick w t rg ctx s
    = checkCandidates w t rg ctx (commits ++ outOfSyncs)
        (addEvents s [EvLog Info msg []]).
Proof.
  cbn zeta. eexists.
  unfold onSyncTick, listCommitCandidates, listOutOfSyncCandidates. mrun.
  rewrite listCommitCandidates_range_eq, listOutOfSyncCandidates_range_eq.
  reflexivity.
Qed.

(** X16.  A sync tick never reports a command, whatever happens to its
    candidates; and on an on-demand tick the determiners are asked for
    command candidates only. *)
Theorem ticks_keep_to_their_kinds w t rg ctx s :
  reports (newEvents s (onSyncTick w t rg ctx s).2) = []
  ∧ Forall (λ q, q.1 ≠ commandCandidate)
      (evaluations (newEvents s (onSyncTick w t rg ctx s).2))
  ∧ Forall (λ q, q.1 = commandCandidate)
      (evaluations (newEvents s (onOndemandTick w t rg ctx s).2)).
Proof.
  assert (∀ cs (Q : candidate → Prop),
    Forall Q cs →
    Forall Q (concat (range rg (groupByRepo cs)).*2)) as Hvisit.
  { intros cs Q HQ.
    rewrite (range_perm rg (groupByRepo cs)), groupByRepo_concat. done. }
  assert (∀ (Q : candidateKind → Prop) (l : list candidate) evs,
    Forall (λ c, Q (kind c)) l →
    evs `sublist_of` question <$> l → Forall (λ q, Q q.1) evs) as Hsubl.
  { intros Q l evs HQ Hsub.
    apply Forall_forall. intros q Hq.
    pose proof (elem_of_sublist _ _ _ Hq Hsub) as Hin.
    apply list_elem_of_fmap in Hin as (c & -> & Hc).
    rewrite Forall_forall in HQ. by apply HQ. }
  destruct (onSyncTick_eq w t rg ctx s) as (msg & Heq).
  set (cs := (commitCandidateOf <$>
                applicationLister_List (t_applicationLister t) (trace s))
             ++ (outOfSyncCandidateOf <$>
                   filter (λ a, SyncState_Status a = OUT_OF_SYNC)
                     (applicationLister_List (t_applicationLister t)
                        (trace s)))) in *.
  assert (Forall (λ c, kind c ≠ commandCandidate) cs) as Hkinds.
  { apply Forall_app. split; apply Forall_fmap, Forall_true; done. }
  destruct (checkGroups_evaluations w t ctx (range rg (groupByRepo cs)) None
              (addEvents s [EvLog Info msg []]))
    as (evs & Ht & Hsub & Hrep).
  assert (newEvents s (onSyncTick w t rg ctx s).2
          = [EvLog Info msg []] ++ evs) as Hnew.
  { rewrite Heq. apply newEvents_app. exact Ht. }
  split_and!.
  - rewrite Hnew. unfold reports in *. rewrite omap_app.
    rewrite Hrep; [done|]. by apply (Hvisit cs).
  - rewrite Hnew. unfold evaluations in *. rewrite omap_app. cbn [app omap list_omap].
    eapply (Hsubl (λ k, k ≠ commandCandidate)); [|apply Hsub].
    by apply (Hvisit cs).
  - rewrite onOndemandTick_eq.
    destruct (listCommandCandidates_range_spec t
                (ListApplicationCommands (t_commandLister t) (trace s)) [] s)
      as (new & warned & Hr & Htw & Hf & _).
    destruct (listCommandCandidates_range t _ [] s) as [cands s1].
    cbn [fst snd app] in Hr, Htw. subst cands.
    match goal with |- context [checkCandidates w t rg ctx new ?s2] =>
      destruct (checkGroups_evaluations w t ctx (range rg (groupByRepo new))
                  None s2) as (evs2 & Ht2 & Hsub2 & _);
      set (s2' := s2) in * end.
    assert (newEvents s (checkCandidates w t rg ctx new s2').2
            = ((λ p, unregisteredWarning p.1 p.2) <$> warned)
              ++ [EvLog Info ("found " +:+ pretty (length new)
                              +:+ " command candidates") []] ++ evs2)
      as Hnew2.
    { apply newEvents_trace. unfold checkCandidates. rewrite Ht2.
      unfold s2'. cbn [trace addEvents]. rewrite Htw.
      by rewrite <- !app_assoc. }
    rewrite Hnew2. unfold evaluations in *. rewrite !omap_app.
    assert (omap (λ e, match e with
                       | EvShouldTrigger k a => Some (k, a)
                       | _ => None
                       end)
              ((λ p, unregisteredWarning p.1 p.2) <$> warned) = []) as ->.
    { clear. induction warned as [|p l IH]; [done|]. cbn. exact IH. }
    cbn [app omap list_omap].
    eapply (Hsubl (λ k, k = commandCandidate)); [|apply Hsub2].
    apply (Hvisit new). eapply Forall_impl; [apply Hf|].
    by intros c [Hk _].
Qed.
